(** * Corellium API client: the instance handle (src/instance.js)

    A shallow embedding of the [Instance] class: the cached snapshot
    [this.info], the [EventEmitter] listener table, the lazily started
    polling loop ([manageUpdates]), the condition waiter ([_waitFor]) and
    the two cached channels ([hypervisor], [agent]).

    Asynchronous methods are split at their [await]s: the part that runs
    synchronously when the method is called, and the continuation that
    runs when the awaited promise settles.  The event loop is a step
    function over explicit environment events (next tick, fetch reply,
    timer, microtask). *)

From Stdlib Require Import ZArith String Ascii List Lia Bool.
From Stdlib Require Import DecimalZ.
From stdpp Require Import base list strings.
Import ListNotations.

Local Open Scope list_scope.

(** ** JSON values

    [fetchApi] hands back what [JSON.parse] produced.  An object keeps its
    members in key order, which is what [JSON.stringify] walks; numbers are
    modelled on the integers, printed in plain decimal. *)

#[local] Unset Elimination Schemes.
Inductive json : Type :=
| JNull
| JBool (b : bool)
| JNum (n : Z)
| JStr (s : string)
| JArr (items : list json)
| JObj (members : list (string * json)).
#[local] Set Elimination Schemes.

Module Json.

(** Induction over the nesting of arrays and objects. *)
Section Induction.
Variable P : json -> Prop.
Hypothesis HNull : P JNull.
Hypothesis HBool : forall b, P (JBool b).
Hypothesis HNum : forall n, P (JNum n).
Hypothesis HStr : forall s, P (JStr s).
Hypothesis HArr : forall items, Forall P items -> P (JArr items).
Hypothesis HObj : forall members, Forall (fun kv => P (snd kv)) members -> P (JObj members).

Fixpoint json_nested_ind (j : json) : P j :=
  match j with
  | JNull => HNull
  | JBool b => HBool b
  | JNum n => HNum n
  | JStr s => HStr s
  | JArr items =>
      HArr items
        ((fix go (l : list json) : Forall P l :=
            match l with
            | [] => @List.Forall_nil _ P
            | x :: l' => @List.Forall_cons _ P x l' (json_nested_ind x) (go l')
            end) items)
  | JObj members =>
      HObj members
        ((fix go (l : list (string * json)) : Forall (fun kv => P (snd kv)) l :=
            match l with
            | [] => @List.Forall_nil _ _
            | kv :: l' => @List.Forall_cons _ (fun kv => P (snd kv)) kv l' (json_nested_ind (snd kv)) (go l')
            end) members)
  end.
End Induction.

(** *** Characters *)

Definition dquote : ascii := Eval cbv in ascii_of_nat 34.
Definition backslash : ascii := Eval cbv in ascii_of_nat 92.

Definition chars (s : string) : list ascii := list_ascii_of_string s.

Definition is_digit (c : ascii) : bool :=
  let n := nat_of_ascii c in (48 <=? n)%nat && (n <=? 57)%nat.

Definition hex_digit (n : nat) : ascii :=
  ascii_of_nat (if (n <? 10)%nat then 48 + n else 87 + n).

(** QuoteJSONString, one code unit at a time: the two-character escapes,
    [\u00xx] for the other control characters, the character itself
    otherwise. *)
Definition escape_char (c : ascii) : list ascii :=
  let n := nat_of_ascii c in
  if (n =? 34)%nat then [backslash; dquote]
  else if (n =? 92)%nat then [backslash; backslash]
  else if (n =? 8)%nat then backslash :: chars "b"
  else if (n =? 12)%nat then backslash :: chars "f"
  else if (n =? 10)%nat then backslash :: chars "n"
  else if (n =? 13)%nat then backslash :: chars "r"
  else if (n =? 9)%nat then backslash :: chars "t"
  else if (n <? 32)%nat then
    backslash :: chars "u00" ++ [hex_digit (n / 16); hex_digit (n mod 16)]
  else [c].

Fixpoint escape (s : list ascii) : list ascii :=
  match s with
  | [] => []
  | c :: s' => escape_char c ++ escape s'
  end.

Definition quote (s : string) : list ascii :=
  dquote :: escape (chars s) ++ [dquote].

(** *** Numbers *)

Fixpoint uint_chars (d : Decimal.uint) : list ascii :=
  match d with
  | Decimal.Nil => []
  | Decimal.D0 d => "0"%char :: uint_chars d
  | Decimal.D1 d => "1"%char :: uint_chars d
  | Decimal.D2 d => "2"%char :: uint_chars d
  | Decimal.D3 d => "3"%char :: uint_chars d
  | Decimal.D4 d => "4"%char :: uint_chars d
  | Decimal.D5 d => "5"%char :: uint_chars d
  | Decimal.D6 d => "6"%char :: uint_chars d
  | Decimal.D7 d => "7"%char :: uint_chars d
  | Decimal.D8 d => "8"%char :: uint_chars d
  | Decimal.D9 d => "9"%char :: uint_chars d
  end.

Definition int_chars (i : Decimal.int) : list ascii :=
  match i with
  | Decimal.Pos d => uint_chars d
  | Decimal.Neg d => "-"%char :: uint_chars d
  end.

Definition num_chars (n : Z) : list ascii := int_chars (Z.to_int n).

(** *** JSON.stringify *)

(** The serialised elements of an array or object, separated by commas. *)
Fixpoint commas (parts : list (list ascii)) : list ascii :=
  match parts with
  | [] => []
  | [p] => p
  | p :: rest => p ++ ","%char :: commas rest
  end.

Definition member_chars (k : string) (v : list ascii) : list ascii :=
  quote k ++ ":"%char :: v.

Fixpoint stringify_chars (j : json) : list ascii :=
  match j with
  | JNull => chars "null"
  | JBool true => chars "true"
  | JBool false => chars "false"
  | JNum n => num_chars n
  | JStr s => quote s
  | JArr items => "["%char :: commas (map stringify_chars items) ++ ["]"%char]
  | JObj members =>
      "{"%char ::
        commas (map (fun kv => member_chars (fst kv) (stringify_chars (snd kv))) members)
        ++ ["}"%char]
  end.

Definition stringify (j : json) : string :=
  string_of_list_ascii (stringify_chars j).

(** *** Reading one escaped character back

    The inverse of [escape_char] on the front of a character sequence; it
    refuses an unescaped double quote, which is where a quoted string ends. *)

Definition hex_val (c : ascii) : option nat :=
  let n := nat_of_ascii c in
  if is_digit c then Some (n - 48)
  else if (97 <=? n)%nat && (n <=? 102)%nat then Some (n - 87)
  else None.

Definition unescape_char (l : list ascii) : option (ascii * list ascii) :=
  match l with
  | [] => None
  | c :: r =>
      let n := nat_of_ascii c in
      if (n =? 34)%nat then None
      else if (n =? 92)%nat then
        match r with
        | [] => None
        | e :: r' =>
            let m := nat_of_ascii e in
            if (m =? 34)%nat then Some (dquote, r')
            else if (m =? 92)%nat then Some (backslash, r')
            else if (m =? 98)%nat then Some (ascii_of_nat 8, r')
            else if (m =? 102)%nat then Some (ascii_of_nat 12, r')
            else if (m =? 110)%nat then Some (ascii_of_nat 10, r')
            else if (m =? 114)%nat then Some (ascii_of_nat 13, r')
            else if (m =? 116)%nat then Some (ascii_of_nat 9, r')
            else if (m =? 117)%nat then
              match r' with
              | _ :: _ :: h :: l :: r'' =>
                  match hex_val h, hex_val l with
                  | Some hv, Some lv => Some (ascii_of_nat (16 * hv + lv), r'')
                  | _, _ => None
                  end
              | _ => None
              end
            else None
        end
      else Some (c, r)
  end.

(** What a serialisation can start with, by the kind of value. *)
Definition kind (j : json) : nat :=
  match j with
  | JNull => 0 | JBool _ => 1 | JNum _ => 2 | JStr _ => 3 | JArr _ => 4 | JObj _ => 5
  end.

Definition kind_of_head (c : ascii) : nat :=
  let n := nat_of_ascii c in
  if (n =? 110)%nat then 0
  else if (n =? 116)%nat || (n =? 102)%nat then 1
  else if is_digit c || (n =? 45)%nat then 2
  else if (n =? 34)%nat then 3
  else if (n =? 91)%nat then 4
  else if (n =? 123)%nat then 5
  else 6.

(** A continuation that cannot be mistaken for more digits of a number. *)
Definition no_digit_head (r : list ascii) : Prop :=
  match r with
  | [] => True
  | c :: _ => is_digit c = false
  end.

(** An element printer [f] reads back at [x]: what it printed for [x],
    followed by something that is not a digit, determines [x] and what
    follows. *)
Definition reads_back {A : Type} (f : A -> list ascii) (x : A) : Prop :=
  forall y r1 r2,
    f x ++ r1 = f y ++ r2 -> no_digit_head r1 -> no_digit_head r2 ->
    x = y /\ r1 = r2.

End Json.


(** ** JavaScript values and the expressions the handle evaluates *)

(** What evaluating an expression gives: a value, or a thrown exception. *)
Inductive completion (A : Type) : Type :=
| Normal (a : A)
| Throw.
Arguments Normal {A} a.
Arguments Throw {A}.

(** A value read out of a snapshot: [undefined], or a JSON value. *)
Inductive jsval : Type :=
| VUndefined
| VJson (j : json).

Module JS.

Definition bind {A B : Type} (c : completion A) (f : A -> completion B) : completion B :=
  match c with
  | Normal a => f a
  | Throw => Throw
  end.

Notation "'let!' x ':=' c 'in' k" := (bind c (fun x => k))
  (at level 10, x name, c at level 100, k at level 200).

(** ToBoolean. *)
Definition truthy (v : jsval) : bool :=
  match v with
  | VUndefined => false
  | VJson JNull => false
  | VJson (JBool b) => b
  | VJson (JNum n) => negb (n =? 0)%Z
  | VJson (JStr s) => negb (String.eqb s "")
  | VJson (JArr _) => true
  | VJson (JObj _) => true
  end.

Fixpoint member (k : string) (members : list (string * json)) : jsval :=
  match members with
  | [] => VUndefined
  | (k', v) :: rest => if String.eqb k' k then VJson v else member k rest
  end.

(** [v.k], for the property names the handle reads (none of them is
    defined on a prototype): a [TypeError] on [undefined] and [null], the
    member of an object, [undefined] on anything else. *)
Definition get (v : jsval) (k : string) : completion jsval :=
  match v with
  | VUndefined => Throw
  | VJson JNull => Throw
  | VJson (JObj members) => Normal (member k members)
  | VJson _ => Normal VUndefined
  end.

(** [v === s] for a string [s]. *)
Definition strict_eq_string (v : jsval) (s : string) : bool :=
  match v with
  | VJson (JStr s') => String.eqb s' s
  | _ => false
  end.

(** ToString, as string concatenation applies it. *)
Fixpoint json_to_string (j : json) : string :=
  match j with
  | JNull => "null"
  | JBool true => "true"
  | JBool false => "false"
  | JNum n => string_of_list_ascii (Json.num_chars n)
  | JStr s => s
  | JArr items =>
      String.concat ","
        (map (fun x => match x with JNull => ""%string | _ => json_to_string x end) items)
  | JObj _ => "[object Object]"
  end.

Definition to_string (v : jsval) : string :=
  match v with
  | VUndefined => "undefined"
  | VJson j => json_to_string j
  end.

End JS.
Import JS.

(** ** The handle and the part of the runtime it touches *)

(** A channel object ([c3po.HypervisorStream], [Agent]); the handle reads
    its [endpoint] and [active] and calls its [disconnect]. *)
Record Channel : Type := {
  endpoint : string;
  active : bool;
}.

(** The functions kept in the [EventEmitter]'s table. *)
Inductive listener : Type :=
| LManageUpdates
    (* () => this.manageUpdates(), installed by the constructor *)
| LWaiter (p : nat) (callback : json -> completion jsval)
    (* the closure [change] of _waitFor, which resolves promise [p] *)
| LObserver (o : nat).
    (* a listener supplied by the user of the handle *)

Definition same_listener (a b : listener) : bool :=
  match a, b with
  | LManageUpdates, LManageUpdates => true
  | LWaiter p _, LWaiter q _ => (p =? q)%nat
  | LObserver o, LObserver o' => (o =? o')%nat
  | _, _ => false
  end.

Inductive promise_state : Type := Pending | Fulfilled | Rejected.

(** Suspended activations of asynchronous code of the handle. *)
Inductive task : Type :=
| Queued       (* the callback given to process.nextTick, not yet run *)
| Fetching     (* polling loop, inside update(), awaiting _fetch *)
| Sleeping     (* polling loop, awaiting sleep(1000) *)
| Refreshing   (* update() called from outside the loop, awaiting _fetch *)
| Commanding   (* rename, start, stop, reboot, destroy: awaiting _fetch *)
| AwaitHypervisor (p : nat)  (* hypervisor(), awaiting its _waitFor promise *)
| AwaitAgent (p : nat)       (* agent(), awaiting its _waitFor promise *)
| Finished     (* returned *)
| Crashed.     (* ended by an exception, raised to the caller where there is one *)

Inductive channel_kind : Type := Hypervisor | Agent.

(** What the handle does to the outside, in order. *)
Inductive effect : Type :=
| Request (path : string) (method : string) (body : option json)
| Emitted (ev : string)
| Notified (o : nat) (ev : string)
| Settled (p : nat)
| Constructed (k : channel_kind) (r : nat) (target : string)
| Disconnected (r : nat)
| Returned (t : nat) (r : nat).

Record Instance : Type := {
  project_api : string;            (* this.project.api *)
  info : json;                     (* this.info *)
  id : jsval;                      (* this.id *)
  updating : bool;                 (* this.updating *)
  hypervisorStream : option nat;   (* this.hypervisorStream, a reference into [heap] *)
  agentStream : option nat;        (* this.agentStream *)
  listeners : list (string * listener);  (* the emitter's table, oldest first *)
  tasks : list task;
  promises : list promise_state;   (* the promises made by _waitFor *)
  heap : list Channel;             (* the channel objects constructed so far *)
  trace : list effect;
}.

Definition set_info (x : json) (st : Instance) : Instance :=
  {| project_api := project_api st; info := x; id := id st; updating := updating st;
     hypervisorStream := hypervisorStream st; agentStream := agentStream st;
     listeners := listeners st; tasks := tasks st; promises := promises st;
     heap := heap st; trace := trace st |}.

Definition set_updating (x : bool) (st : Instance) : Instance :=
  {| project_api := project_api st; info := info st; id := id st; updating := x;
     hypervisorStream := hypervisorStream st; agentStream := agentStream st;
     listeners := listeners st; tasks := tasks st; promises := promises st;
     heap := heap st; trace := trace st |}.

Definition set_hypervisorStream (x : option nat) (st : Instance) : Instance :=
  {| project_api := project_api st; info := info st; id := id st; updating := updating st;
     hypervisorStream := x; agentStream := agentStream st;
     listeners := listeners st; tasks := tasks st; promises := promises st;
     heap := heap st; trace := trace st |}.

Definition set_agentStream (x : option nat) (st : Instance) : Instance :=
  {| project_api := project_api st; info := info st; id := id st; updating := updating st;
     hypervisorStream := hypervisorStream st; agentStream := x;
     listeners := listeners st; tasks := tasks st; promises := promises st;
     heap := heap st; trace := trace st |}.

Definition set_listeners (x : list (string * listener)) (st : Instance) : Instance :=
  {| project_api := project_api st; info := info st; id := id st; updating := updating st;
     hypervisorStream := hypervisorStream st; agentStream := agentStream st;
     listeners := x; tasks := tasks st; promises := promises st;
     heap := heap st; trace := trace st |}.

Definition set_tasks (x : list task) (st : Instance) : Instance :=
  {| project_api := project_api st; info := info st; id := id st; updating := updating st;
     hypervisorStream := hypervisorStream st; agentStream := agentStream st;
     listeners := listeners st; tasks := x; promises := promises st;
     heap := heap st; trace := trace st |}.

Definition set_promises (x : list promise_state) (st : Instance) : Instance :=
  {| project_api := project_api st; info := info st; id := id st; updating := updating st;
     hypervisorStream := hypervisorStream st; agentStream := agentStream st;
     listeners := listeners st; tasks := tasks st; promises := x;
     heap := heap st; trace := trace st |}.

Definition set_heap (x : list Channel) (st : Instance) : Instance :=
  {| project_api := project_api st; info := info st; id := id st; updating := updating st;
     hypervisorStream := hypervisorStream st; agentStream := agentStream st;
     listeners := listeners st; tasks := tasks st; promises := promises st;
     heap := x; trace := trace st |}.

Definition set_trace (x : list effect) (st : Instance) : Instance :=
  {| project_api := project_api st; info := info st; id := id st; updating := updating st;
     hypervisorStream := hypervisorStream st; agentStream := agentStream st;
     listeners := listeners st; tasks := tasks st; promises := promises st;
     heap := heap st; trace := x |}.

Definition log (e : effect) (st : Instance) : Instance :=
  set_trace (trace st ++ [e]) st.

Definition set_task (t : nat) (x : task) (st : Instance) : Instance :=
  set_tasks (<[t := x]> (tasks st)) st.

Definition spawn (x : task) (st : Instance) : Instance :=
  set_tasks (tasks st ++ [x]) st.

(** *** constructor *)

Definition new_Instance (api : string) (info0 : json) : completion Instance :=
  let! id0 := get (VJson info0) "id" in
  Normal {| project_api := api; info := info0; id := id0; updating := false;
            hypervisorStream := None; agentStream := None;
            listeners := [("newListener"%string, LManageUpdates)];
            tasks := []; promises := []; heap := []; trace := [] |}.

(** *** get name, get state, get flavor *)

Definition name (st : Instance) : completion jsval := get (VJson (info st)) "name".
Definition state (st : Instance) : completion jsval := get (VJson (info st)) "state".
Definition flavor (st : Instance) : completion jsval := get (VJson (info st)) "flavor".

(** *** _fetch: the call is handed to fetchApi; its reply comes later *)

Definition _fetch (path : string) (method : string) (body : option json)
    (st : Instance) : Instance :=
  log (Request ("/instances/" +:+ to_string (id st) +:+ path) method body) st.

(** *** rename, start, stop, reboot, destroy: the remote call and nothing else *)

Definition rename (new_name : json) (st : Instance) : Instance :=
  _fetch "" "PATCH" (Some (JObj [("name"%string, new_name)])) st.

Definition start (st : Instance) : Instance := _fetch "/start" "POST" None st.
Definition stop (st : Instance) : Instance := _fetch "/stop" "POST" None st.
Definition reboot (st : Instance) : Instance := _fetch "/reboot" "POST" None st.
Definition destroy (st : Instance) : Instance := _fetch "" "DELETE" None st.

(** Modelled from the spec: [pause] is not in src/instance.js; section 4.4
    lists it with the command operations, a fire-and-forget remote call
    that does not itself update the cached snapshot. *)
Definition pause (st : Instance) : Instance := _fetch "/pause" "POST" None st.

(** Modelled from the spec: [unpause] is not in src/instance.js; section
    4.4 lists it with the command operations, a fire-and-forget remote call
    that does not itself update the cached snapshot. *)
Definition unpause (st : Instance) : Instance := _fetch "/unpause" "POST" None st.

(** *** The EventEmitter *)

Definition listeners_of (ev : string) (st : Instance) : list listener :=
  map snd (List.filter (fun el => String.eqb (fst el) ev) (listeners st)).

Definition listenerCount (ev : string) (st : Instance) : nat :=
  length (listeners_of ev st).

(** removeListener takes out the most recently added matching entry. *)
Fixpoint remove_last (ev : string) (l : listener) (table : list (string * listener))
    : list (string * listener) :=
  match table with
  | [] => []
  | e :: rest =>
      let hit (x : string * listener) := String.eqb (fst x) ev && same_listener (snd x) l in
      if existsb hit rest then e :: remove_last ev l rest
      else if hit e then rest
      else e :: rest
  end.

Definition removeListener (ev : string) (l : listener) (st : Instance) : Instance :=
  set_listeners (remove_last ev l (listeners st)) st.

(** *** manageUpdates

    The flag is read here; it is set by the callback, when it runs. *)
Definition manageUpdates (st : Instance) : Instance :=
  if updating st then st else spawn Queued st.

(** *** _waitFor *)

Definition resolve (p : nat) (st : Instance) : Instance :=
  match promises st !! p with
  | Some Pending => log (Settled p) (set_promises (<[p := Fulfilled]> (promises st)) st)
  | _ => st
  end.

(** The closure [change]. *)
Definition change (p : nat) (callback : json -> completion jsval) (st : Instance) : Instance :=
  let done :=
    match callback (info st) with   (* try { done = callback(); } *)
    | Normal v => truthy v
    | Throw => false                (* catch (e) { done = false; } *)
    end in
  if done then resolve p (removeListener "change" (LWaiter p callback) st)
  else st.

Definition call_listener (ev : string) (l : listener) (st : Instance) : Instance :=
  match l with
  | LManageUpdates => manageUpdates st
  | LWaiter p callback => change p callback st
  | LObserver o => log (Notified o ev) st
  end.

(** emit calls the listeners registered when it starts, oldest first. *)
Definition emit (ev : string) (st : Instance) : Instance :=
  fold_left (fun s l => call_listener ev l s) (listeners_of ev st) (log (Emitted ev) st).

(** on: 'newListener' is emitted before the listener is added. *)
Definition on (ev : string) (l : listener) (st : Instance) : Instance :=
  let st1 :=
    match listeners_of "newListener" st with
    | [] => st
    | _ :: _ => emit "newListener" st
    end in
  set_listeners (listeners st1 ++ [(ev, l)]) st1.

Definition _waitFor (callback : json -> completion jsval) (st : Instance) : Instance * nat :=
  let p := length (promises st) in
  let st1 := set_promises (promises st ++ [Pending]) st in
  let st2 := on "change" (LWaiter p callback) st1 in
  (change p callback st2, p).

(** The callbacks the handle itself passes to _waitFor. *)

(* () => this.info.services.vpn && this.info.services.vpn.ip *)
Definition vpn_ip_assigned (i : json) : completion jsval :=
  let! services := get (VJson i) "services" in
  let! vpn := get services "vpn" in
  if truthy vpn then
    let! services' := get (VJson i) "services" in
    let! vpn' := get services' "vpn" in
    get vpn' "ip"
  else Normal vpn.

(* () => !!this.info.agent *)
Definition agent_present (i : json) : completion jsval :=
  let! a := get (VJson i) "agent" in
  Normal (VJson (JBool (truthy a))).

(* () => this.state !== 'creating' *)
Definition not_creating (i : json) : completion jsval :=
  let! s := get (VJson i) "state" in
  Normal (VJson (JBool (negb (strict_eq_string s "creating")))).

(* () => this.state === state *)
Definition state_is (target : string) (i : json) : completion jsval :=
  let! s := get (VJson i) "state" in
  Normal (VJson (JBool (strict_eq_string s target))).

Definition finishRestore (st : Instance) : Instance * nat := _waitFor not_creating st.

Definition waitForState (target : string) (st : Instance) : Instance * nat :=
  _waitFor (state_is target) st.

(** *** update

    [update_call] is update() up to its await; [update] is the rest, run
    on the snapshot the fetch returned.  The second component tells
    whether it returned or threw (reading [panicked] off a [null]). *)

Definition update_call (st : Instance) : Instance := _fetch "" "GET" None st.

Definition update (fetched : json) (st : Instance) : Instance * completion unit :=
  if negb (String.eqb (Json.stringify fetched) (Json.stringify (info st))) then
    let st1 := set_info fetched st in
    let st2 := emit "change" st1 in
    match get (VJson fetched) "panicked" with
    | Normal panicked =>
        if truthy panicked then (emit "panic" st2, Normal tt) else (st2, Normal tt)
    | Throw => (st2, Throw)
    end
  else (st, Normal tt).

(** *** The channels *)

Definition stream_active (r : nat) (st : Instance) : bool :=
  match heap st !! r with
  | Some ch => active ch
  | None => false
  end.

Definition stream_endpoint (r : nat) (st : Instance) : string :=
  match heap st !! r with
  | Some ch => endpoint ch
  | None => ""
  end.

(** Modelled from the spec: the channel classes (c3po.js, agent.js) are not
    under src/.  Section 6 gives their contract: a channel is constructed
    from an endpoint, which it records, and has a liveness flag and a
    disconnect.  A new channel is taken to be live, a disconnected one is
    not.  Section 7: constructing a channel raises when the connection
    cannot be established, and then no channel object comes to exist;
    [connects] is the answer of the outside at that construction. *)
Definition construct (k : channel_kind) (target : string) (connects : bool) (st : Instance)
  : Instance * completion nat :=
  if connects then
    let r := length (heap st) in
    (log (Constructed k r target)
       (set_heap (heap st ++ [{| endpoint := target; active := true |}]) st), Normal r)
  else (st, Throw).

(** Modelled from the spec: [disconnect] of a channel class that is not
    under src/ (section 6); the call is recorded and the channel is no
    longer live. *)
Definition disconnect (r : nat) (st : Instance) : Instance :=
  log (Disconnected r)
    (set_heap (alter (fun ch => {| endpoint := endpoint ch; active := false |}) r (heap st)) st).

(** Modelled from the spec: the connection under a channel goes away by
    itself, after which the channel no longer reports itself active
    (section 6, liveness flag). *)
Definition connection_lost (r : nat) (st : Instance) : Instance :=
  set_heap (alter (fun ch => {| endpoint := endpoint ch; active := false |}) r (heap st)) st.

(** hypervisor() up to its await. *)
Definition hypervisor_call (st : Instance) : Instance :=
  let (st1, p) := _waitFor vpn_ip_assigned st in
  spawn (AwaitHypervisor p) st1.

(** let endpoint = this.project.api + '/c3po/' + this.info.c3po *)
Definition hypervisor_endpoint (st : Instance) : completion string :=
  let! c3po := get (VJson (info st)) "c3po" in
  Normal (project_api st +:+ "/c3po/" +:+ to_string c3po).

(** hypervisor() after its await; [connects] tells whether a connection
    can be established, should the call construct a channel. *)
Definition hypervisor (connects : bool) (st : Instance) : Instance * completion nat :=
  match hypervisor_endpoint st with
  | Throw => (st, Throw)
  | Normal target =>
      let connect (s : Instance) : Instance * completion nat :=
        match construct Hypervisor target connects s with
        | (s1, Normal r) => (set_hypervisorStream (Some r) s1, Normal r)
        | (s1, Throw) => (s1, Throw)
        end in
      match hypervisorStream st with
      | Some r =>
          if stream_active r st then
            if String.eqb target (stream_endpoint r st) then (st, Normal r)
            else connect (set_hypervisorStream None (disconnect r st))
          else connect st
      | None => connect st
      end
  end.

(** agent() up to its await. *)
Definition agent_call (st : Instance) : Instance :=
  let (st1, p) := _waitFor agent_present st in
  spawn (AwaitAgent p) st1.

(** let endpoint = this.project.api + '/agent/' + this.info.agent.info *)
Definition agent_endpoint (st : Instance) : completion string :=
  let! a := get (VJson (info st)) "agent" in
  let! agent_info := get a "info" in
  Normal (project_api st +:+ "/agent/" +:+ to_string agent_info).

(** agent() after its await. *)
Definition agent (connects : bool) (st : Instance) : Instance * completion nat :=
  match agent_endpoint st with
  | Throw => (st, Throw)
  | Normal target =>
      let connect (s : Instance) : Instance * completion nat :=
        match construct Agent target connects s with
        | (s1, Normal r) => (set_agentStream (Some r) s1, Normal r)
        | (s1, Throw) => (s1, Throw)
        end in
      match agentStream st with
      | Some r =>
          if stream_active r st then
            if String.eqb target (stream_endpoint r st) then (st, Normal r)
            else connect (set_agentStream None (disconnect r st))
          else connect st
      | None => connect st
      end
  end.

(** The two accessors, by kind of channel. *)
Definition request (k : channel_kind) (connects : bool) (st : Instance)
  : Instance * completion nat :=
  match k with
  | Hypervisor => hypervisor connects st
  | Agent => agent connects st
  end.

Definition stored (k : channel_kind) (st : Instance) : option nat :=
  match k with
  | Hypervisor => hypervisorStream st
  | Agent => agentStream st
  end.

Definition derived_endpoint (k : channel_kind) (st : Instance) : completion string :=
  match k with
  | Hypervisor => hypervisor_endpoint st
  | Agent => agent_endpoint st
  end.

(** *** The polling loop started by manageUpdates

    [poll_start]: the nextTick callback begins, sets the flag and enters
    update().  [poll_reply]: the fetch is back; update() finishes and the
    loop goes to sleep.  [poll_wake]: the sleep is over; the loop tests
    listenerCount('change') and goes round again or clears the flag. *)

Definition poll_start (t : nat) (st : Instance) : option Instance :=
  match tasks st !! t with
  | Some Queued => Some (set_task t Fetching (update_call (set_updating true st)))
  | _ => None
  end.

Definition poll_reply (t : nat) (reply : option json) (st : Instance) : option Instance :=
  match tasks st !! t with
  | Some Fetching =>
      match reply with
      | None => Some (set_task t Crashed st)
      | Some fetched =>
          match update fetched st with
          | (st1, Normal _) => Some (set_task t Sleeping st1)
          | (st1, Throw) => Some (set_task t Crashed st1)
          end
      end
  | _ => None
  end.

Definition poll_wake (t : nat) (st : Instance) : option Instance :=
  match tasks st !! t with
  | Some Sleeping =>
      if negb (listenerCount "change" st =? 0)%nat
      then Some (set_task t Fetching (update_call st))
      else Some (set_task t Finished (set_updating false st))
  | _ => None
  end.

Definition polling (x : task) : bool :=
  match x with
  | Queued | Fetching | Sleeping => true
  | _ => false
  end.

(** How many polling loops the handle has, scheduled or running. *)
Definition polling_tasks (st : Instance) : nat :=
  length (List.filter polling (tasks st)).

(** *** The event loop *)

Inductive command : Type :=
| CRename (new_name : json)
| CStart | CStop | CReboot | CDestroy | CPause | CUnpause.

Definition issue (c : command) (st : Instance) : Instance :=
  match c with
  | CRename new_name => rename new_name st
  | CStart => start st
  | CStop => stop st
  | CReboot => reboot st
  | CDestroy => destroy st
  | CPause => pause st
  | CUnpause => unpause st
  end.

Inductive event : Type :=
| CallOn (ev : string) (o : nat)
| CallRemoveListener (ev : string) (o : nat)
| CallWaitFor (callback : json -> completion jsval)
| CallWaitForState (target : string)
| CallFinishRestore
| CallUpdate
| CallCommand (c : command)
| CallHypervisor
| CallAgent
| Tick                               (* the oldest nextTick callback runs *)
| Reply (t : nat) (r : option json)  (* the fetch of task t is back, or has failed *)
| Timer (t : nat)                    (* the sleep of task t is over *)
| Resume (t : nat) (connects : bool)
    (* task t goes on, its promise fulfilled; [connects]: a channel it
       constructs gets its connection *)
| ConnectionLost (r : nat).

Fixpoint first_queued (l : list task) : option nat :=
  match l with
  | [] => None
  | Queued :: _ => Some 0
  | _ :: rest => S <$> first_queued rest
  end.

Definition reply (t : nat) (r : option json) (st : Instance) : option Instance :=
  match tasks st !! t with
  | Some Fetching => poll_reply t r st
  | Some Refreshing =>
      match r with
      | None => Some (set_task t Crashed st)
      | Some fetched =>
          match update fetched st with
          | (st1, Normal _) => Some (set_task t Finished st1)
          | (st1, Throw) => Some (set_task t Crashed st1)
          end
      end
  | Some Commanding =>
      match r with
      | None => Some (set_task t Crashed st)
      | Some _ => Some (set_task t Finished st)
      end
  | _ => None
  end.

Definition resume (t : nat) (connects : bool) (st : Instance) : option Instance :=
  let finish (out : Instance * completion nat) : option Instance :=
    match out with
    | (st1, Normal r) => Some (log (Returned t r) (set_task t Finished st1))
    | (st1, Throw) => Some (set_task t Crashed st1)
    end in
  match tasks st !! t with
  | Some (AwaitHypervisor p) =>
      match promises st !! p with
      | Some Fulfilled => finish (hypervisor connects st)
      | _ => None
      end
  | Some (AwaitAgent p) =>
      match promises st !! p with
      | Some Fulfilled => finish (agent connects st)
      | _ => None
      end
  | _ => None
  end.

(** One turn of the handle's life; [None] when the event cannot happen
    in this state.  Any order of events is allowed, which includes the
    orders in which Node runs them. *)
Definition step (e : event) (st : Instance) : option Instance :=
  match e with
  | CallOn ev o => Some (on ev (LObserver o) st)
  | CallRemoveListener ev o => Some (removeListener ev (LObserver o) st)
  | CallWaitFor callback => Some (fst (_waitFor callback st))
  | CallWaitForState target => Some (fst (waitForState target st))
  | CallFinishRestore => Some (fst (finishRestore st))
  | CallUpdate => Some (spawn Refreshing (update_call st))
  | CallCommand c => Some (spawn Commanding (issue c st))
  | CallHypervisor => Some (hypervisor_call st)
  | CallAgent => Some (agent_call st)
  | Tick =>
      match first_queued (tasks st) with
      | Some t => poll_start t st
      | None => None
      end
  | Reply t r => reply t r st
  | Timer t => poll_wake t st
  | Resume t connects => resume t connects st
  | ConnectionLost r => Some (connection_lost r st)
  end.

Fixpoint run (es : list event) (st : Instance) : option Instance :=
  match es with
  | [] => Some st
  | e :: rest =>
      match step e st with
      | Some st1 => run rest st1
      | None => None
      end
  end.

(** How often an effect shows in a trace. *)
Definition emitted (ev : string) (tr : list effect) : nat :=
  length (List.filter (fun e => match e with Emitted ev' => String.eqb ev' ev | _ => false end) tr).

Definition disconnects (r : nat) (tr : list effect) : nat :=
  length (List.filter (fun e => match e with Disconnected r' => (r' =? r)%nat | _ => false end) tr).

Definition requests (tr : list effect) : nat :=
  length (List.filter (fun e => match e with Request _ _ _ => true | _ => false end) tr).

(** *** Vocabulary of the statements *)

(** [if (done)], with the [catch] that turns an exception into [false]. *)
Definition satisfied (callback : json -> completion jsval) (i : json) : bool :=
  match callback i with
  | Normal v => truthy v
  | Throw => false
  end.

(** The snapshot has [state === target]. *)
Definition has_state (target : string) (i : json) : bool := satisfied (state_is target) i.

(** The snapshot's [panicked] is truthy. *)
Definition panicked (i : json) : bool :=
  match get (VJson i) "panicked" with
  | Normal v => truthy v
  | Throw => false
  end.

(** The comparison update() makes. *)
Definition differs (a b : json) : bool :=
  negb (String.eqb (Json.stringify a) (Json.stringify b)).

Definition waits_for (p : nat) (e : string * listener) : bool :=
  match snd e with
  | LWaiter q _ => (q =? p)%nat
  | _ => false
  end.

(** Promise [p] is pending and its closure is registered, once, for 'change'. *)
Definition waiting (p : nat) (callback : json -> completion jsval) (st : Instance) : Prop :=
  promises st !! p = Some Pending /\
  List.filter (waits_for p) (listeners st) = [("change"%string, LWaiter p callback)].

(** Every registered closure of _waitFor belongs to a promise already made. *)
Definition promises_known (st : Instance) : Prop :=
  Forall (fun e => match snd e with
                   | LWaiter q _ => q < length (promises st)
                   | _ => True
                   end) (listeners st).

(** The listener is not a closure of promise [p]. *)
Definition not_waiter (p : nat) (l : listener) : Prop :=
  match l with
  | LWaiter q _ => q <> p
  | _ => True
  end.

(** Promise [p] has been resolved. *)
Definition fulfilled (p : nat) (st : Instance) : Prop :=
  promises st !! p = Some Fulfilled.

(** Promise [p] is waiting and the cached snapshot does not satisfy its callback. *)
Definition still_waiting (p : nat) (cb : json -> completion jsval) (st : Instance) : Prop :=
  waiting p cb st /\ satisfied cb (info st) = false.

(** No promise made by _waitFor is rejected. *)
Definition unrejected (st : Instance) : Prop :=
  forall p, promises st !! p <> Some Rejected.

(** No event of the run is a reply carrying a snapshot that satisfies [callback]. *)
Definition no_reply_satisfies (callback : json -> completion jsval) (es : list event) : Prop :=
  Forall (fun e => match e with
                   | Reply _ (Some fetched) => satisfied callback fetched = false
                   | _ => True
                   end) es.

(** Structural equality as section 4.1 words it: recursive over nested
    structures, and independent of the order of the keys of a mapping. *)
Fixpoint structurally_equal (a b : json) : bool :=
  match a, b with
  | JNull, JNull => true
  | JBool x, JBool y => Bool.eqb x y
  | JNum x, JNum y => (x =? y)%Z
  | JStr x, JStr y => String.eqb x y
  | JArr xs, JArr ys =>
      (fix pairwise (l1 l2 : list json) : bool :=
         match l1, l2 with
         | [], [] => true
         | x :: l1', y :: l2' => structurally_equal x y && pairwise l1' l2'
         | _, _ => false
         end) xs ys
  | JObj xs, JObj ys =>
      (length xs =? length ys)%nat &&
      forallb (fun kv =>
                 match member (fst kv) ys with
                 | VJson v' => structurally_equal (snd kv) v'
                 | VUndefined => false
                 end) xs
  | _, _ => false
  end.

(** The events that take polling task [t], now in phase [x], to the end of
    the cycle it is in, when the fetch of that cycle brings [reply]. *)
Definition rest_of_cycle (t : nat) (reply : option json) (x : task) : list event :=
  match x with
  | Queued => [Tick; Reply t reply; Timer t]
  | Fetching => [Reply t reply; Timer t]
  | Sleeping => [Timer t]
  | _ => []
  end.

(** * Sample handles *)

Definition snapshot_off : json :=
  JObj [("id", JStr "i-1"); ("name", JStr "phone"); ("state", JStr "off")]%string.

Definition snapshot_off_reordered : json :=
  JObj [("state", JStr "off"); ("name", JStr "phone"); ("id", JStr "i-1")]%string.

Definition snapshot_on : json :=
  JObj [("id", JStr "i-1"); ("name", JStr "phone"); ("state", JStr "on")]%string.

Definition blank : Instance :=
  {| project_api := "https://host/api"; info := JNull; id := VUndefined; updating := false;
     hypervisorStream := None; agentStream := None; listeners := [];
     tasks := []; promises := []; heap := []; trace := [] |}.

Definition handle_of (i : json) : Instance :=
  match new_Instance "https://host/api" i with
  | Normal st => st
  | Throw => blank
  end.

Definition after (es : list event) (st : Instance) : Instance :=
  match run es st with
  | Some st' => st'
  | None => st
  end.

Definition off_handle : Instance := handle_of snapshot_off.

(** A handle whose polling loop is running: one observer, one tick. *)
Definition polling_handle : Instance := after [CallOn "change" 1; Tick] off_handle.

(** * The claims that fail, as they are stated *)

(** C8, as stated: update() makes a 'panic' notification exactly when it
    sees a change, the new snapshot is panicked and the cached one was
    not. *)
Definition panic_only_when_newly_entered (st : Instance) (fetched : json) : Prop :=
  emitted "panic" (trace (fst (update fetched st))) = S (emitted "panic" (trace st)) <->
  (differs fetched (info st) = true /\ panicked fetched = true /\
   panicked (info st) = false).

Definition panicked_info (n : string) : json :=
  JObj [("id", JStr "i-1"); ("name", JStr n); ("panicked", JBool true)]%string.

(** C10, as stated: every call of _waitFor schedules a polling task. *)
Definition waitFor_always_schedules (st : Instance) (cb : json -> completion jsval) : Prop :=
  polling_tasks (fst (_waitFor cb st)) = S (polling_tasks st) /\
  requests (trace (after [Tick] (fst (_waitFor cb st)))) = S (requests (trace st)).

(** A snapshot with an address assigned, a hypervisor path and an agent. *)
Definition connected_info (c3po agent_info : string) : json :=
  JObj [("id", JStr "i-1"); ("state", JStr "on");
        ("services", JObj [("vpn", JObj [("ip", JStr "10.11.0.2")])]);
        ("c3po", JStr c3po);
        ("agent", JObj [("info", JStr agent_info)])]%string.

(** A handle that has obtained its hypervisor channel (channel 0). *)
Definition connected_handle : Instance :=
  after [CallHypervisor; Tick; Resume 1 true] (handle_of (connected_info "c1" "a1")).

(** The same handle after the connection under that channel has gone. *)
Definition lost_handle : Instance := after [ConnectionLost 0] connected_handle.

(** C2, as stated, first half: a stored channel is live. *)
Definition stored_channels_live (st : Instance) : Prop :=
  forall k r, stored k st = Some r -> stream_active r st = true.

(** C2, as stated, second half: a stored channel that a request does not
    give back has had its disconnect called once by that request. *)
Definition disconnected_before_replaced (k : channel_kind) (st : Instance) : Prop :=
  forall connects r st' r',
    stored k st = Some r -> request k connects st = (st', Normal r') -> r' <> r ->
    disconnects r (trace st') = S (disconnects r (trace st)).

(** A handle whose loop has lost its last listener and then its fetch: the
    observer is registered and removed while the first fetch is under way,
    and that fetch fails. *)
Definition failed_handle : Instance :=
  after [CallOn "change" 1; Tick; CallRemoveListener "change" 1; Reply 0 None] off_handle.

(** C5, as stated, its last clause: once no loop is left and nobody
    listens for 'change', the next registration of a 'change' listener
    starts a loop, which fetches at its tick. *)
Definition rearmable (st : Instance) : Prop :=
  polling_tasks st = 0 -> listenerCount "change" st = 0 ->
  forall o, exists st',
    run [CallOn "change" o; Tick] st = Some st' /\
    polling_tasks st' = 1 /\
    requests (trace st') = S (requests (trace st)).

(** The state getter of a snapshot gives the string [target]:
    [this.state === target] for a string. *)
Definition state_field_is (target : string) (i : json) : Prop :=
  get (VJson i) "state" = Normal (VJson (JStr target)).

(** No event of the run is a reply whose snapshot has state [target]. *)
Definition no_reply_has_state (target : string) (es : list event) : Prop :=
  Forall (fun e => match e with
                   | Reply _ (Some fetched) => ~ state_field_is target fetched
                   | _ => True
                   end) es.

(** * Vocabulary of the further properties *)

(** Calls that register a listener with the emitter. *)
Definition registers (e : event) : bool :=
  match e with
  | CallOn _ _ | CallWaitFor _ | CallWaitForState _ | CallFinishRestore
  | CallHypervisor | CallAgent => true
  | _ => false
  end.


(** A request goes to the resource of the handle whose [id] is [i]. *)
Definition addressed (i : jsval) (e : effect) : Prop :=
  match e with
  | Request path _ _ => String.prefix ("/instances/" +:+ to_string i) path = true
  | _ => True
  end.

(** The callbacks queued with process.nextTick are run before anything
    else happens: one call on the handle, then the tick it may have
    queued. *)
Definition settle (st : Instance) : option Instance :=
  match first_queued (tasks st) with
  | Some t => poll_start t st
  | None => Some st
  end.

Definition turn (e : event) (st : Instance) : option Instance :=
  match step e st with
  | Some st1 => settle st1
  | None => None
  end.

Definition is_hook (e : string * listener) : bool :=
  match snd e with
  | LManageUpdates => true
  | _ => false
  end.

(** The hook of the constructor is the only place manageUpdates is
    registered. *)
Definition hooked_once (st : Instance) : Prop :=
  List.filter is_hook (listeners st) = [("newListener"%string, LManageUpdates)].

(** At most one polling loop, none of them waiting for its tick, and the
    flag set while there is one. *)
Definition single_loop (st : Instance) : Prop :=
  first_queued (tasks st) = None /\
  polling_tasks st <= 1 /\
  (polling_tasks st = 1 -> updating st = true).

Definition other_kind (k : channel_kind) : channel_kind :=
  match k with
  | Hypervisor => Agent
  | Agent => Hypervisor
  end.

(** A handle with two waiters, for 'on' and for 'deleted'. *)
Definition two_waiters : Instance :=
  after [CallWaitForState "on"; CallWaitForState "deleted"] off_handle.

Definition is_manageUpdates (l : listener) : bool :=
  match l with
  | LManageUpdates => true
  | _ => false
  end.

(** A run made of turns. *)
Fixpoint turns (es : list event) (st : Instance) : option Instance :=
  match es with
  | [] => Some st
  | e :: rest =>
      match turn e st with
      | Some st1 => turns rest st1
      | None => None
      end
  end.

(** Calls that go to the remote accessor when they are made. *)
Definition calls_remote (e : event) : bool :=
  match e with
  | CallUpdate | CallCommand _ => true
  | _ => false
  end.

(** The handle is idle: only the constructor's hook is registered, the
    flag is clear and there is no polling loop. *)
Definition idle (st : Instance) : Prop :=
  listeners st = [("newListener"%string, LManageUpdates)] /\
  updating st = false /\
  polling_tasks st = 0.


(** The handle keeps the [id] and the project it was constructed with, and
    every request it has made is addressed to the resource of that id. *)
Definition own_resource (i : jsval) (api : string) (st : Instance) : Prop :=
  id st = i /\ project_api st = api /\ Forall (addressed i) (trace st).



(** * Facts about the serialisation *)

Example stringify_sample :
  Json.stringify (JObj [("state", JStr "on"); ("ports", JArr [JNum 22; JNum (-1)]);
                        ("panicked", JBool false); ("agent", JNull)]%string)
  = String.concat ""
      ["{"; String Json.dquote "state"; String Json.dquote ":"; String Json.dquote "on";
       String Json.dquote ","; String Json.dquote "ports"; String Json.dquote ":[22,-1],";
       String Json.dquote "panicked"; String Json.dquote ":false,";
       String Json.dquote "agent"; String Json.dquote ":null}"]%string.
Proof. vm_compute. reflexivity. Qed.

Module JsonFacts.
Import Json.

Lemma unescape_escape_char (c : ascii) (r : list ascii) :
  unescape_char (escape_char c ++ r) = Some (c, r).
Proof.
  destruct c as [[] [] [] [] [] [] [] []]; reflexivity.
Qed.

Lemma unescape_dquote (r : list ascii) : unescape_char (dquote :: r) = None.
Proof. reflexivity. Qed.

Lemma escape_inj (s1 : list ascii) :
  forall s2 r1 r2,
    escape s1 ++ dquote :: r1 = escape s2 ++ dquote :: r2 ->
    s1 = s2 /\ r1 = r2.
Proof.
  induction s1 as [|c1 s1 IH]; intros [|c2 s2] r1 r2 H; simpl in H.
  - by inversion H.
  - apply (f_equal unescape_char) in H.
    rewrite <- app_assoc, unescape_escape_char, unescape_dquote in H. discriminate.
  - apply (f_equal unescape_char) in H.
    rewrite <- app_assoc, unescape_escape_char, unescape_dquote in H. discriminate.
  - apply (f_equal unescape_char) in H.
    rewrite <- !app_assoc, !unescape_escape_char in H.
    inversion H as [[Hc Hr]]. apply IH in Hr as [-> ->]. done.
Qed.

Lemma chars_inj (s1 s2 : string) : chars s1 = chars s2 -> s1 = s2.
Proof.
  intros H. apply (f_equal string_of_list_ascii) in H.
  unfold chars in H. by rewrite !string_of_list_ascii_of_string in H.
Qed.

Lemma quote_inj (k1 k2 : string) (r1 r2 : list ascii) :
  quote k1 ++ r1 = quote k2 ++ r2 -> k1 = k2 /\ r1 = r2.
Proof.
  unfold quote. simpl. rewrite <- !app_assoc. simpl. intros H.
  inversion H as [H']. apply escape_inj in H' as [Hs ->].
  split; [by apply chars_inj | done].
Qed.

(** Digits, and the sign, read back from the front of a sequence. *)

Lemma uint_chars_inj (d1 : Decimal.uint) :
  forall d2 r1 r2,
    uint_chars d1 ++ r1 = uint_chars d2 ++ r2 ->
    no_digit_head r1 -> no_digit_head r2 ->
    d1 = d2 /\ r1 = r2.
Proof.
  induction d1 as [|d1 IH|d1 IH|d1 IH|d1 IH|d1 IH|d1 IH|d1 IH|d1 IH|d1 IH|d1 IH];
    intros [|d2|d2|d2|d2|d2|d2|d2|d2|d2|d2] r1 r2 H N1 N2; simpl in H;
    try (subst; simpl in *; discriminate);
    try (inversion H; fail);
    try done;
    inversion H as [H']; apply IH in H' as [-> ->]; done.
Qed.

Lemma uint_chars_head (d : Decimal.uint) :
  d <> Decimal.Nil ->
  exists c rest, uint_chars d = c :: rest /\ is_digit c = true.
Proof.
  destruct d; intros Hd; try done; simpl; eauto.
Qed.

Lemma to_int_cases (n : Z) :
  exists d, d <> Decimal.Nil /\ (Z.to_int n = Decimal.Pos d \/ Z.to_int n = Decimal.Neg d).
Proof.
  destruct n as [|p|p]; simpl.
  - exists Decimal.zero. split; [done | by left].
  - exists (Pos.to_uint p). split; [apply DecimalPos.Unsigned.to_uint_nonnil | by left].
  - exists (Pos.to_uint p). split; [apply DecimalPos.Unsigned.to_uint_nonnil | by right].
Qed.

Lemma num_chars_head (n : Z) :
  exists c rest, num_chars n = c :: rest /\ kind_of_head c = 2.
Proof.
  destruct (to_int_cases n) as (d & Hd & [E|E]); unfold num_chars; rewrite E; simpl.
  - destruct (uint_chars_head d Hd) as (c & rest & -> & Hc).
    exists c, rest. split; [done|].
    unfold kind_of_head. rewrite Hc.
    destruct c as [[] [] [] [] [] [] [] []]; try reflexivity; discriminate.
  - eexists _, _. split; [reflexivity | reflexivity].
Qed.

Lemma num_chars_inj (a b : Z) (r1 r2 : list ascii) :
  num_chars a ++ r1 = num_chars b ++ r2 ->
  no_digit_head r1 -> no_digit_head r2 ->
  a = b /\ r1 = r2.
Proof.
  intros H N1 N2.
  assert (Z.to_int a = Z.to_int b /\ r1 = r2) as [E ->].
  { unfold num_chars in H.
    destruct (to_int_cases a) as (da & Hda & [Ea|Ea]);
      destruct (to_int_cases b) as (db & Hdb & [Eb|Eb]);
      rewrite Ea, Eb in *; simpl in H.
    - apply uint_chars_inj in H as [-> ->]; done.
    - destruct (uint_chars_head da Hda) as (c & rest & Hc & Hdig).
      rewrite Hc in H. inversion H; subst. discriminate.
    - destruct (uint_chars_head db Hdb) as (c & rest & Hc & Hdig).
      rewrite Hc in H. inversion H; subst. discriminate.
    - inversion H as [H']. apply uint_chars_inj in H' as [-> ->]; done. }
  split; [|done].
  rewrite <- (DecimalZ.of_to a), <- (DecimalZ.of_to b). by rewrite E.
Qed.

(** Every serialisation starts with a character that tells the kind of
    value that follows. *)
Lemma stringify_chars_head (j : json) :
  exists c rest, stringify_chars j = c :: rest /\ kind_of_head c = kind j.
Proof.
  destruct j as [|[]|n|s|items|members]; simpl;
    try (eexists _, _; split; reflexivity).
  apply num_chars_head.
Qed.

Lemma stringify_chars_kind (a b : json) (r1 r2 : list ascii) :
  stringify_chars a ++ r1 = stringify_chars b ++ r2 -> kind a = kind b.
Proof.
  intros H.
  destruct (stringify_chars_head a) as (ca & ra & Ea & <-).
  destruct (stringify_chars_head b) as (cb & rb & Eb & <-).
  rewrite Ea, Eb in H. by inversion H.
Qed.

Lemma commas_cons (p : list ascii) (rest : list (list ascii)) (t : list ascii) :
  commas (p :: rest) ++ t
  = p ++ match rest with [] => t | _ :: _ => ","%char :: commas rest ++ t end.
Proof.
  destruct rest; simpl; [done|].
  rewrite <- app_assoc. done.
Qed.

(** A comma-separated sequence, closed by [close], is read back element by
    element as soon as each element is. *)
Section Commas.
Context {A : Type} (f : A -> list ascii) (close : ascii).
Hypothesis close_not_comma : close <> ","%char.
Hypothesis close_not_digit : is_digit close = false.
Hypothesis head_not_close : forall x r r', f x ++ r <> close :: r'.

Lemma commas_inj (l1 : list A) :
  Forall (reads_back f) l1 ->
  forall l2 r1 r2,
    commas (map f l1) ++ close :: r1 = commas (map f l2) ++ close :: r2 ->
    l1 = l2 /\ r1 = r2.
Proof.
  induction 1 as [|x l1 Hx Hl1 IH]; intros [|y l2] r1 r2 H.
  - simpl in H. by inversion H.
  - simpl map in H. rewrite commas_cons in H. simpl in H.
    symmetry in H. by apply head_not_close in H.
  - simpl map in H. rewrite commas_cons in H. simpl in H.
    by apply head_not_close in H.
  - simpl map in H. rewrite !commas_cons in H.
    apply Hx in H as [-> H].
    + destruct (map f l1); simpl; [done | reflexivity].
    + destruct (map f l2); simpl; [done | reflexivity].
    + destruct l1 as [|x1 l1], l2 as [|y1 l2]; simpl map in H.
      * by inversion H.
      * inversion H. by subst.
      * inversion H. by subst.
      * injection H as H. apply (IH (y1 :: l2)) in H as [-> ->]. done.
Qed.
End Commas.

Lemma stringify_chars_inj_gen (a : json) :
  forall b r1 r2,
    stringify_chars a ++ r1 = stringify_chars b ++ r2 ->
    no_digit_head r1 -> no_digit_head r2 ->
    a = b /\ r1 = r2.
Proof.
  induction a as [|b1|n1|s1|items1 IH|members1 IH] using json_nested_ind;
    intros b r1 r2 H N1 N2;
    pose proof (stringify_chars_kind _ _ _ _ H) as K;
    destruct b as [|b2|n2|s2|items2|members2]; try discriminate K; clear K.
  - simpl in H. inversion H. done.
  - destruct b1, b2; simpl in H; inversion H; done.
  - simpl in H. apply num_chars_inj in H as [-> ->]; done.
  - simpl in H. apply quote_inj in H as [-> ->]. done.
  - simpl in H. rewrite <- !app_assoc in H. inversion H as [H'].
    apply (commas_inj stringify_chars "]"%char) in H' as [-> ->]; try done.
    intros x r r'. intros E.
    destruct (stringify_chars_head x) as (c & rest & Ec & Hk).
    rewrite Ec in E. inversion E; subst. destruct x; discriminate.
  - simpl in H. rewrite <- !app_assoc in H. inversion H as [H'].
    apply (commas_inj (fun kv => member_chars (fst kv) (stringify_chars (snd kv))) "}"%char)
      in H' as [-> ->]; try done.
    eapply Forall_impl; [exact IH|].
    intros [k v] Hv [k' v'] t1 t2 E T1 T2. cbn [fst snd] in *.
    unfold member_chars in E. rewrite <- !app_assoc in E.
    apply quote_inj in E as [-> E]. rewrite <- !app_comm_cons in E.
    injection E as E'.
    apply Hv in E' as [-> ->]; done.
Qed.

(** [JSON.stringify] is one-to-one: two snapshots serialise to the same
    string only when they are the same value, member order included. *)
Lemma stringify_inj (a b : json) : stringify a = stringify b -> a = b.
Proof.
  unfold stringify. intros H.
  apply (f_equal list_ascii_of_string) in H.
  rewrite !list_ascii_of_string_of_list_ascii in H.
  assert (stringify_chars a ++ [] = stringify_chars b ++ []) as H'
    by (by rewrite !app_nil_r).
  apply stringify_chars_inj_gen in H' as [-> _]; done.
Qed.

End JsonFacts.

(** * Facts about the emitter, the waiters and update *)

Lemma differs_spec (a b : json) : differs a b = true <-> a <> b.
Proof.
  unfold differs. rewrite negb_true_iff. split.
  - intros H ->. by rewrite String.eqb_refl in H.
  - intros H. apply String.eqb_neq. intros E. by apply H, JsonFacts.stringify_inj.
Qed.

Lemma differs_refl (a : json) : differs a a = false.
Proof. unfold differs. by rewrite String.eqb_refl. Qed.

Lemma emitted_app (ev : string) (a b : list effect) :
  emitted ev (a ++ b) = emitted ev a + emitted ev b.
Proof. unfold emitted. by rewrite List.filter_app, length_app. Qed.

Lemma requests_app (a b : list effect) :
  requests (a ++ b) = requests a + requests b.
Proof. unfold requests. by rewrite List.filter_app, length_app. Qed.

Ltac count_effects :=
  rewrite ?emitted_app, ?requests_app; unfold emitted, requests; simpl; try lia.

Lemma fold_left_invariant {A B : Type} (P : A -> Prop) (f : A -> B -> A) (l : list B) :
  forall a, P a -> (forall s x, In x l -> P s -> P (f s x)) -> P (fold_left f l a).
Proof.
  induction l as [|x l IH]; intros a Ha Hf; simpl; [done|].
  apply IH.
  - apply Hf; [by left | done].
  - intros s y Hy. apply Hf. by right.
Qed.

Lemma in_listeners_of (ev : string) (l : listener) (st : Instance) :
  In l (listeners_of ev st) <-> In (ev, l) (listeners st).
Proof.
  unfold listeners_of. rewrite in_map_iff. split.
  - intros ([ev' l'] & <- & H). apply filter_In in H as [H E]. simpl in *.
    apply String.eqb_eq in E. by subst.
  - intros H. exists (ev, l). split; [done|].
    apply filter_In. split; [done|]. simpl. apply String.eqb_refl.
Qed.

(** What the listeners leave alone. *)

Lemma change_info p cb st : info (change p cb st) = info st.
Proof.
  unfold change, resolve, removeListener.
  destruct (match cb (info st) with Normal v => truthy v | Throw => false end); [|done].
  simpl. destruct (_ !! p) as [[]|]; done.
Qed.

Lemma change_tasks p cb st : tasks (change p cb st) = tasks st.
Proof.
  unfold change, resolve, removeListener.
  destruct (match cb (info st) with Normal v => truthy v | Throw => false end); [|done].
  simpl. destruct (_ !! p) as [[]|]; done.
Qed.

Lemma change_updating p cb st : updating (change p cb st) = updating st.
Proof.
  unfold change, resolve, removeListener.
  destruct (match cb (info st) with Normal v => truthy v | Throw => false end); [|done].
  simpl. destruct (_ !! p) as [[]|]; done.
Qed.

Lemma change_emitted ev p cb st :
  emitted ev (trace (change p cb st)) = emitted ev (trace st).
Proof.
  unfold change, resolve, removeListener.
  destruct (match cb (info st) with Normal v => truthy v | Throw => false end); [|done].
  simpl. destruct (_ !! p) as [[]|]; simpl; try done.
  count_effects.
Qed.

Lemma change_requests p cb st :
  requests (trace (change p cb st)) = requests (trace st).
Proof.
  unfold change, resolve, removeListener.
  destruct (match cb (info st) with Normal v => truthy v | Throw => false end); [|done].
  simpl. destruct (_ !! p) as [[]|]; simpl; try done.
  count_effects.
Qed.

Lemma call_listener_info ev l st : info (call_listener ev l st) = info st.
Proof.
  destruct l; simpl; [|apply change_info|done].
  unfold manageUpdates. by destruct (updating st).
Qed.

Lemma call_listener_emitted ev' ev l st :
  emitted ev' (trace (call_listener ev l st)) = emitted ev' (trace st).
Proof.
  destruct l; simpl.
  - unfold manageUpdates. by destruct (updating st).
  - apply change_emitted.
  - count_effects.
Qed.

Lemma call_listener_requests ev l st :
  requests (trace (call_listener ev l st)) = requests (trace st).
Proof.
  destruct l; simpl.
  - unfold manageUpdates. by destruct (updating st).
  - apply change_requests.
  - count_effects.
Qed.

Lemma emit_info ev st : info (emit ev st) = info st.
Proof.
  unfold emit.
  apply (fold_left_invariant (fun s => info s = info st)); [done|].
  intros s l _ <-. apply call_listener_info.
Qed.

(** One call of emit is one notification, whatever the listeners do. *)
Lemma emit_emitted ev' ev st :
  emitted ev' (trace (emit ev st))
  = emitted ev' (trace st) + (if String.eqb ev ev' then 1 else 0).
Proof.
  unfold emit.
  apply (fold_left_invariant
           (fun s => emitted ev' (trace s)
                     = emitted ev' (trace st) + (if String.eqb ev ev' then 1 else 0))).
  - simpl. rewrite emitted_app. unfold emitted at 2. simpl.
    destruct (String.eqb ev ev'); simpl; lia.
  - intros s l _ <-. apply call_listener_emitted.
Qed.

Lemma emit_requests ev st : requests (trace (emit ev st)) = requests (trace st).
Proof.
  unfold emit.
  apply (fold_left_invariant (fun s => requests (trace s) = requests (trace st))).
  - simpl. count_effects.
  - intros s l _ <-. apply call_listener_requests.
Qed.

(** *** update *)

Lemma update_unchanged fetched st :
  differs fetched (info st) = false -> update fetched st = (st, Normal tt).
Proof. unfold update, differs. by intros ->. Qed.

Lemma update_changed fetched st :
  differs fetched (info st) = true ->
  update fetched st =
    let st2 := emit "change" (set_info fetched st) in
    match get (VJson fetched) "panicked" with
    | Normal v => if truthy v then (emit "panic" st2, Normal tt) else (st2, Normal tt)
    | Throw => (st2, Throw)
    end.
Proof. unfold update, differs. by intros ->. Qed.

Lemma update_info fetched st :
  info (fst (update fetched st)) = if differs fetched (info st) then fetched else info st.
Proof.
  destruct (differs fetched (info st)) eqn:D.
  - rewrite update_changed by done. cbv zeta.
    destruct (get _ _) as [v|]; [destruct (truthy v)|]; simpl;
      by rewrite !emit_info.
  - by rewrite update_unchanged.
Qed.

Lemma update_emitted_change fetched st :
  emitted "change" (trace (fst (update fetched st)))
  = emitted "change" (trace st) + (if differs fetched (info st) then 1 else 0).
Proof.
  destruct (differs fetched (info st)) eqn:D.
  - rewrite update_changed by done. cbv zeta.
    destruct (get _ _) as [v|]; [destruct (truthy v)|]; simpl;
      rewrite ?emit_emitted; simpl; rewrite ?emit_emitted; simpl; lia.
  - rewrite update_unchanged by done. simpl. lia.
Qed.

Lemma update_emitted_panic fetched st :
  emitted "panic" (trace (fst (update fetched st)))
  = emitted "panic" (trace st)
    + (if differs fetched (info st) && panicked fetched then 1 else 0).
Proof.
  destruct (differs fetched (info st)) eqn:D.
  - rewrite update_changed by done. cbv zeta. unfold panicked.
    destruct (get _ _) as [v|]; [destruct (truthy v)|]; simpl;
      rewrite ?emit_emitted; simpl; rewrite ?emit_emitted; simpl; lia.
  - rewrite update_unchanged by done. simpl. lia.
Qed.

Lemma update_requests fetched st :
  requests (trace (fst (update fetched st))) = requests (trace st).
Proof.
  destruct (differs fetched (info st)) eqn:D.
  - rewrite update_changed by done. cbv zeta.
    destruct (get _ _) as [v|]; [destruct (truthy v)|]; simpl;
      rewrite ?emit_requests; simpl; rewrite ?emit_requests; done.
  - by rewrite update_unchanged.
Qed.

(** *** Waiters *)

Lemma waiting_ext p cb st st' :
  promises st' = promises st -> listeners st' = listeners st ->
  waiting p cb st -> waiting p cb st'.
Proof. unfold waiting. by intros -> ->. Qed.

Lemma waiting_registered p cb st :
  waiting p cb st -> In ("change"%string, LWaiter p cb) (listeners st).
Proof.
  intros [_ H].
  assert (In ("change"%string, LWaiter p cb) (List.filter (waits_for p) (listeners st))) as Hin
    by (rewrite H; by left).
  by apply filter_In in Hin as [Hin _].
Qed.

Lemma waiting_entry p cb st ev cb' :
  waiting p cb st -> In (ev, LWaiter p cb') (listeners st) ->
  ev = "change"%string /\ cb' = cb.
Proof.
  intros [_ H] Hin.
  assert (In (ev, LWaiter p cb') (List.filter (waits_for p) (listeners st))) as Hf.
  { apply filter_In. split; [done|]. unfold waits_for. simpl. apply Nat.eqb_refl. }
  rewrite H in Hf. destruct Hf as [E|[]]. by inversion E.
Qed.

Lemma same_listener_not_waiter p e l :
  not_waiter p l -> same_listener (snd e) l = true -> waits_for p e = false.
Proof.
  unfold waits_for. destruct e as [ev [|q cb|o]], l as [|q' cb'|o']; simpl; try done.
  intros Hq E. apply Nat.eqb_eq in E. subst. by apply Nat.eqb_neq.
Qed.

Lemma remove_last_other p ev l table :
  not_waiter p l ->
  List.filter (waits_for p) (remove_last ev l table) = List.filter (waits_for p) table.
Proof.
  intros Hl. induction table as [|e rest IH]; simpl; [done|].
  destruct (existsb _ rest).
  - simpl. by rewrite IH.
  - destruct (String.eqb (fst e) ev && same_listener (snd e) l) eqn:Hit; [|done].
    apply andb_true_iff in Hit as [_ Hs].
    by rewrite (same_listener_not_waiter p e l Hl Hs).
Qed.

Lemma resolve_promises q st p :
  p <> q -> promises (resolve q st) !! p = promises st !! p.
Proof.
  intros Hne. unfold resolve. destruct (promises st !! q) as [[]|]; simpl; try done.
  by apply list_lookup_insert_ne.
Qed.

Lemma resolve_listeners q st : listeners (resolve q st) = listeners st.
Proof. unfold resolve. by destruct (promises st !! q) as [[]|]. Qed.

Lemma resolve_fulfilled q st p : fulfilled p st -> fulfilled p (resolve q st).
Proof.
  unfold fulfilled, resolve. intros H.
  destruct (decide (p = q)) as [->|Hne].
  - by rewrite H.
  - destruct (promises st !! q) as [[]|]; simpl; try done.
    by rewrite list_lookup_insert_ne.
Qed.

Lemma resolve_pending p st :
  promises st !! p = Some Pending -> fulfilled p (resolve p st).
Proof.
  unfold fulfilled, resolve. intros H. rewrite H. simpl.
  apply list_lookup_insert_eq. by apply lookup_lt_Some in H.
Qed.

Lemma change_unsatisfied p cb st :
  satisfied cb (info st) = false -> change p cb st = st.
Proof. unfold change, satisfied. by intros ->. Qed.

Lemma change_satisfied p cb st :
  satisfied cb (info st) = true ->
  change p cb st = resolve p (removeListener "change" (LWaiter p cb) st).
Proof. unfold change, satisfied. by intros ->. Qed.

Lemma change_other q cb' p cb st :
  q <> p -> waiting p cb st -> waiting p cb (change q cb' st).
Proof.
  intros Hne [Hp Hl].
  destruct (satisfied cb' (info st)) eqn:S.
  - rewrite change_satisfied by done. split.
    + by rewrite resolve_promises.
    + rewrite resolve_listeners. simpl. by rewrite remove_last_other.
  - by rewrite change_unsatisfied.
Qed.

Lemma change_fulfilled q cb' p st : fulfilled p st -> fulfilled p (change q cb' st).
Proof.
  intros H. destruct (satisfied cb' (info st)) eqn:S.
  - rewrite change_satisfied by done. by apply resolve_fulfilled.
  - by rewrite change_unsatisfied.
Qed.

Lemma manageUpdates_promises st : promises (manageUpdates st) = promises st.
Proof. unfold manageUpdates. by destruct (updating st). Qed.

Lemma manageUpdates_listeners st : listeners (manageUpdates st) = listeners st.
Proof. unfold manageUpdates. by destruct (updating st). Qed.

Lemma call_listener_waiting ev l p cb st :
  waiting p cb st ->
  (forall cb', l = LWaiter p cb' -> satisfied cb' (info st) = false) ->
  waiting p cb (call_listener ev l st).
Proof.
  intros W Hl. destruct l as [|q cb'|o]; simpl.
  - eapply waiting_ext; [apply manageUpdates_promises|apply manageUpdates_listeners|done].
  - destruct (decide (q = p)) as [->|Hne].
    + by rewrite change_unsatisfied by (by apply Hl).
    + by apply change_other.
  - by eapply waiting_ext; [| |exact W].
Qed.

Lemma call_listener_fulfilled ev l p st :
  fulfilled p st -> fulfilled p (call_listener ev l st).
Proof.
  intros F. destruct l as [|q cb'|o]; simpl; [|by apply change_fulfilled|done].
  unfold fulfilled. by rewrite manageUpdates_promises.
Qed.

Lemma emit_fulfilled ev p st : fulfilled p st -> fulfilled p (emit ev st).
Proof.
  intros F. unfold emit. apply fold_left_invariant; [done|].
  intros s l _. apply call_listener_fulfilled.
Qed.

(** A waiter survives a notification that does not satisfy it. *)
Lemma emit_waiting ev p cb st :
  waiting p cb st ->
  (ev = "change"%string -> satisfied cb (info st) = false) ->
  waiting p cb (emit ev st).
Proof.
  intros W Hev. unfold emit.
  apply (fold_left_invariant (fun s => waiting p cb s /\ info s = info st)).
  - split; [by eapply waiting_ext; [| |exact W] | done].
  - intros s l Hin [Ws Hi]. split; [|by rewrite call_listener_info].
    apply call_listener_waiting; [done|].
    intros cb' ->. apply in_listeners_of in Hin.
    destruct (waiting_entry _ _ _ _ _ W Hin) as [-> ->].
    rewrite Hi. by apply Hev.
Qed.

(** A notification that satisfies a waiter fulfils its promise. *)
Lemma emit_change_fulfils p cb st :
  waiting p cb st -> satisfied cb (info st) = true -> fulfilled p (emit "change" st).
Proof.
  intros W S. unfold emit.
  pose proof (waiting_registered _ _ _ W) as Hin.
  apply in_listeners_of in Hin. apply in_split in Hin as (l1 & l2 & ->).
  rewrite fold_left_app. simpl.
  apply fold_left_invariant; [|intros s l _; apply call_listener_fulfilled].
  set (s1 := fold_left _ l1 _).
  assert ((waiting p cb s1 \/ fulfilled p s1) /\ info s1 = info st) as [[W1|F1] Hi].
  { apply (fold_left_invariant
             (fun s => (waiting p cb s \/ fulfilled p s) /\ info s = info st)).
    - split; [left; by eapply waiting_ext; [| |exact W] | done].
    - intros s l _ [[Ws|Fs] Hs]; (split; [|by rewrite call_listener_info]).
      + destruct l as [|q cb'|o]; simpl.
        * left. eapply waiting_ext;
            [apply manageUpdates_promises|apply manageUpdates_listeners|done].
        * destruct (decide (q = p)) as [->|Hne].
          -- destruct (satisfied cb' (info s)) eqn:S'.
             ++ right. rewrite change_satisfied by done.
                apply resolve_pending. simpl. apply Ws.
             ++ left. by rewrite change_unsatisfied.
          -- left. by apply change_other.
        * left. by eapply waiting_ext; [| |exact Ws].
      + right. by apply call_listener_fulfilled. }
  - rewrite change_satisfied by (by rewrite Hi).
    apply resolve_pending. simpl. apply W1.
  - by apply change_fulfilled.
Qed.

Lemma on_waiting ev l p cb st :
  not_waiter p l -> waiting p cb st -> waiting p cb (on ev l st).
Proof.
  intros Hl W. unfold on.
  set (st1 := match listeners_of "newListener" st with [] => st | _ :: _ => _ end).
  assert (waiting p cb st1) as [Hp Hf].
  { subst st1. destruct (listeners_of "newListener" st); [done|].
    by apply emit_waiting. }
  split; [done|]. simpl. rewrite List.filter_app, Hf. simpl.
  replace (waits_for p (ev, l)) with false; [done|].
  unfold waits_for. destruct l as [|q c|o]; simpl in *; try done.
  symmetry. by apply Nat.eqb_neq.
Qed.

Lemma on_fulfilled ev l p st : fulfilled p st -> fulfilled p (on ev l st).
Proof.
  intros F. unfold on, fulfilled. simpl.
  destruct (listeners_of "newListener" st); [done|]. by apply emit_fulfilled.
Qed.

Lemma on_info ev l st : info (on ev l st) = info st.
Proof.
  unfold on. simpl. destruct (listeners_of "newListener" st); [done|]. apply emit_info.
Qed.

Lemma waitFor_info cb st : info (fst (_waitFor cb st)) = info st.
Proof. unfold _waitFor. simpl. by rewrite change_info, on_info. Qed.

(** Somebody else's _waitFor leaves a waiter as it is. *)
Lemma waitFor_waiting cb' p cb st :
  waiting p cb st -> waiting p cb (fst (_waitFor cb' st)).
Proof.
  intros W. unfold _waitFor. simpl.
  assert (length (promises st) <> p) as Hne.
  { destruct W as [Hp _]. apply lookup_lt_Some in Hp. lia. }
  apply change_other; [done|]. apply on_waiting; [done|].
  destruct W as [Hp Hf]. split; [|done]. simpl. by apply lookup_app_l_Some.
Qed.

Lemma waitFor_fulfilled cb' p st :
  fulfilled p st -> fulfilled p (fst (_waitFor cb' st)).
Proof.
  intros F. unfold _waitFor. simpl. apply change_fulfilled, on_fulfilled.
  unfold fulfilled. simpl. by apply lookup_app_l_Some.
Qed.

Lemma update_waiting fetched p cb st :
  waiting p cb st -> satisfied cb fetched = false ->
  waiting p cb (fst (update fetched st)).
Proof.
  intros W S. destruct (differs fetched (info st)) eqn:D.
  - rewrite update_changed by done. cbv zeta.
    assert (waiting p cb (emit "change" (set_info fetched st))) as W2.
    { apply emit_waiting; [by eapply waiting_ext; [| |exact W] | done]. }
    destruct (get _ _) as [v|]; [destruct (truthy v)|]; simpl; try done.
    by apply emit_waiting.
  - by rewrite update_unchanged.
Qed.

Lemma update_fulfilled fetched p st :
  fulfilled p st -> fulfilled p (fst (update fetched st)).
Proof.
  intros F. destruct (differs fetched (info st)) eqn:D.
  - rewrite update_changed by done. cbv zeta.
    assert (fulfilled p (emit "change" (set_info fetched st))) as F2
      by (by apply emit_fulfilled).
    destruct (get _ _) as [v|]; [destruct (truthy v)|]; simpl; try done.
    by apply emit_fulfilled.
  - by rewrite update_unchanged.
Qed.

(** The refresh whose snapshot satisfies a waiter fulfils its promise. *)
Lemma update_fulfils fetched p cb st :
  waiting p cb st -> satisfied cb (info st) = false -> satisfied cb fetched = true ->
  fulfilled p (fst (update fetched st)).
Proof.
  intros W S0 S1.
  assert (differs fetched (info st) = true) as D.
  { apply differs_spec. intros E. rewrite E in S1. congruence. }
  rewrite update_changed by done. cbv zeta.
  assert (fulfilled p (emit "change" (set_info fetched st))) as F2.
  { apply (emit_change_fulfils p cb); [by eapply waiting_ext; [| |exact W] | done]. }
  destruct (get _ _) as [v|]; [destruct (truthy v)|]; simpl; try done.
  by apply emit_fulfilled.
Qed.

(** *** What the channel accessors and the loop leave alone *)

Lemma request_frame k c st :
  let st' := fst (request k c st) in
  promises st' = promises st /\ listeners st' = listeners st /\ info st' = info st /\
  tasks st' = tasks st /\ updating st' = updating st.
Proof.
  destruct k, c; simpl; unfold hypervisor, agent, construct.
  1,2: destruct (hypervisor_endpoint st); [|done];
    destruct (hypervisorStream st) as [r|]; [|done];
    destruct (stream_active r st); [|done];
    by destruct (String.eqb _ _).
  all: destruct (agent_endpoint st); [|done];
    destruct (agentStream st) as [r|]; [|done];
    destruct (stream_active r st); [|done];
    by destruct (String.eqb _ _).
Qed.

Lemma issue_frame c st :
  info (issue c st) = info st /\ promises (issue c st) = promises st /\
  listeners (issue c st) = listeners st /\ tasks (issue c st) = tasks st /\
  updating (issue c st) = updating st /\
  hypervisorStream (issue c st) = hypervisorStream st /\
  agentStream (issue c st) = agentStream st /\ heap (issue c st) = heap st.
Proof. by destruct c. Qed.

Lemma update_still_waiting fetched p cb st :
  still_waiting p cb st -> satisfied cb fetched = false ->
  still_waiting p cb (fst (update fetched st)).
Proof.
  intros [W S] Sf. split; [by apply update_waiting|].
  rewrite update_info. by destruct (differs _ _).
Qed.

Lemma still_waiting_ext p cb st st' :
  promises st' = promises st -> listeners st' = listeners st -> info st' = info st ->
  still_waiting p cb st -> still_waiting p cb st'.
Proof. unfold still_waiting, waiting. by intros -> -> ->. Qed.

Lemma waitFor_still_waiting cb' p cb st :
  still_waiting p cb st -> still_waiting p cb (fst (_waitFor cb' st)).
Proof.
  intros [W S]. split; [by apply waitFor_waiting | by rewrite waitFor_info].
Qed.

(** Whatever happens to the handle, a waiter goes on waiting as long as no
    refresh brings a snapshot that satisfies it. *)
Lemma step_still_waiting e p cb st st' :
  step e st = Some st' ->
  match e with
  | Reply _ (Some fetched) => satisfied cb fetched = false
  | _ => True
  end ->
  still_waiting p cb st -> still_waiting p cb st'.
Proof.
  intros Hstep He SW. destruct e; simpl in Hstep.
  - inversion Hstep; subst. destruct SW as [W S].
    split; [by apply on_waiting | by rewrite on_info].
  - inversion Hstep; subst. destruct SW as [[Hp Hf] S].
    split; [|done]. split; [done|]. simpl. by rewrite remove_last_other.
  - inversion Hstep; subst. by apply waitFor_still_waiting.
  - inversion Hstep; subst. by apply waitFor_still_waiting.
  - inversion Hstep; subst. by apply waitFor_still_waiting.
  - inversion Hstep; subst. by eapply still_waiting_ext; [| | |exact SW].
  - inversion Hstep; subst. destruct (issue_frame c st) as (Hi & Hp & Hl & _).
    by eapply still_waiting_ext; [| | |exact SW].
  - inversion Hstep; subst. unfold hypervisor_call.
    pose proof (waitFor_still_waiting vpn_ip_assigned p cb st SW) as SW'.
    destruct (_waitFor vpn_ip_assigned st) as [st1 q]. simpl in SW'.
    by eapply still_waiting_ext; [| | |exact SW'].
  - inversion Hstep; subst. unfold agent_call.
    pose proof (waitFor_still_waiting agent_present p cb st SW) as SW'.
    destruct (_waitFor agent_present st) as [st1 q]. simpl in SW'.
    by eapply still_waiting_ext; [| | |exact SW'].
  - destruct (first_queued (tasks st)) as [t|]; [|done].
    unfold poll_start in Hstep. destruct (tasks st !! t) as [[]|]; try done.
    inversion Hstep; subst. by eapply still_waiting_ext; [| | |exact SW].
  - unfold reply, poll_reply in Hstep.
    destruct (tasks st !! t) as [[]|]; try done; destruct r as [fetched|];
      try (inversion Hstep; subst; by eapply still_waiting_ext; [| | |exact SW]).
    + pose proof (update_still_waiting fetched p cb st SW He) as SW'.
      destruct (update fetched st) as [st1 [[]|]]; simpl in *;
        inversion Hstep; subst; by eapply still_waiting_ext; [| | |exact SW'].
    + pose proof (update_still_waiting fetched p cb st SW He) as SW'.
      destruct (update fetched st) as [st1 [[]|]]; simpl in *;
        inversion Hstep; subst; by eapply still_waiting_ext; [| | |exact SW'].
  - unfold poll_wake in Hstep. destruct (tasks st !! t) as [[]|]; try done.
    destruct (negb _); inversion Hstep; subst;
      by eapply still_waiting_ext; [| | |exact SW].
  - unfold resume in Hstep.
    destruct (tasks st !! t) as [[]|]; try done;
      destruct (promises st !! p0) as [[]|]; try done.
    + destruct (request_frame Hypervisor connects st) as (Hp & Hl & Hi & _). simpl in *.
      destruct (hypervisor connects st) as [st1 [r|]]; simpl in *;
        inversion Hstep; subst; by eapply still_waiting_ext; [| | |exact SW].
    + destruct (request_frame Agent connects st) as (Hp & Hl & Hi & _). simpl in *.
      destruct (agent connects st) as [st1 [r|]]; simpl in *;
        inversion Hstep; subst; by eapply still_waiting_ext; [| | |exact SW].
  - inversion Hstep; subst. by eapply still_waiting_ext; [| | |exact SW].
Qed.

Lemma run_still_waiting es p cb :
  forall st st',
    run es st = Some st' -> no_reply_satisfies cb es ->
    still_waiting p cb st -> still_waiting p cb st'.
Proof.
  induction es as [|e es IH]; intros st st' Hrun Hq SW; simpl in Hrun.
  - by inversion Hrun; subst.
  - destruct (step e st) as [st1|] eqn:Hstep; [|done].
    inversion Hq as [|? ? He Hes]; subst.
    eapply IH; [exact Hrun|exact Hes|].
    eapply step_still_waiting; [exact Hstep|exact He|exact SW].
Qed.

(** A refresh in the loop, or one asked for from outside, whose snapshot
    satisfies a waiter fulfils its promise. *)
Lemma reply_fulfils t fetched p cb st st' :
  still_waiting p cb st -> satisfied cb fetched = true ->
  (tasks st !! t = Some Fetching \/ tasks st !! t = Some Refreshing) ->
  step (Reply t (Some fetched)) st = Some st' ->
  fulfilled p st'.
Proof.
  intros [W S] Sf Ht Hstep. simpl in Hstep. unfold reply, poll_reply in Hstep.
  pose proof (update_fulfils fetched p cb st W S Sf) as F.
  destruct Ht as [Ht|Ht]; rewrite Ht in Hstep;
    destruct (update fetched st) as [st1 [[]|]]; simpl in *;
    inversion Hstep; subst; exact F.
Qed.

(** *** No promise of _waitFor is ever rejected *)

Lemma unrejected_ext st st' :
  promises st' = promises st -> unrejected st -> unrejected st'.
Proof. unfold unrejected. by intros ->. Qed.

Lemma resolve_unrejected q st : unrejected st -> unrejected (resolve q st).
Proof.
  intros U p. unfold resolve.
  destruct (promises st !! q) as [[]|] eqn:Hq; try apply U.
  simpl. destruct (decide (q = p)) as [->|Hne].
  - rewrite list_lookup_insert_eq; [done|]. by apply lookup_lt_Some in Hq.
  - rewrite list_lookup_insert_ne by done. apply U.
Qed.

Lemma change_unrejected q cb st : unrejected st -> unrejected (change q cb st).
Proof.
  intros U. destruct (satisfied cb (info st)) eqn:S.
  - rewrite change_satisfied by done. by apply resolve_unrejected.
  - by rewrite change_unsatisfied.
Qed.

Lemma call_listener_unrejected ev l st :
  unrejected st -> unrejected (call_listener ev l st).
Proof.
  intros U. destruct l; simpl; [|by apply change_unrejected|done].
  eapply unrejected_ext; [apply manageUpdates_promises|done].
Qed.

Lemma emit_unrejected ev st : unrejected st -> unrejected (emit ev st).
Proof.
  intros U. unfold emit. apply fold_left_invariant; [done|].
  intros s l _. apply call_listener_unrejected.
Qed.

Lemma on_unrejected ev l st : unrejected st -> unrejected (on ev l st).
Proof.
  intros U. unfold on.
  destruct (listeners_of "newListener" st); [done|].
  pose proof (emit_unrejected "newListener" st U) as U'. exact U'.
Qed.

Lemma waitFor_unrejected cb st : unrejected st -> unrejected (fst (_waitFor cb st)).
Proof.
  intros U. unfold _waitFor. simpl. apply change_unrejected, on_unrejected.
  intros p. simpl. destruct (decide (p < length (promises st))) as [Hlt|Hge].
  - rewrite lookup_app_l by done. apply U.
  - rewrite lookup_app_r by lia.
    destruct (p - length (promises st)) as [|n]; simpl; [done|].
    by destruct n.
Qed.

Lemma update_unrejected fetched st :
  unrejected st -> unrejected (fst (update fetched st)).
Proof.
  intros U. destruct (differs fetched (info st)) eqn:D.
  - rewrite update_changed by done. cbv zeta.
    assert (unrejected (emit "change" (set_info fetched st))) as U2
      by (by apply emit_unrejected).
    destruct (get _ _) as [v|]; [destruct (truthy v)|]; simpl; try done.
    by apply emit_unrejected.
  - by rewrite update_unchanged.
Qed.

Lemma step_unrejected e st st' :
  step e st = Some st' -> unrejected st -> unrejected st'.
Proof.
  intros Hstep U. destruct e; simpl in Hstep.
  - inversion Hstep; subst. by apply on_unrejected.
  - inversion Hstep; subst. done.
  - inversion Hstep; subst. by apply waitFor_unrejected.
  - inversion Hstep; subst. by apply waitFor_unrejected.
  - inversion Hstep; subst. by apply waitFor_unrejected.
  - inversion Hstep; subst. done.
  - inversion Hstep; subst. destruct (issue_frame c st) as (_ & Hp & _).
    by eapply unrejected_ext; [|exact U].
  - inversion Hstep; subst. unfold hypervisor_call.
    pose proof (waitFor_unrejected vpn_ip_assigned st U) as U'.
    by destruct (_waitFor vpn_ip_assigned st).
  - inversion Hstep; subst. unfold agent_call.
    pose proof (waitFor_unrejected agent_present st U) as U'.
    by destruct (_waitFor agent_present st).
  - destruct (first_queued (tasks st)) as [t|]; [|done].
    unfold poll_start in Hstep. destruct (tasks st !! t) as [[]|]; try done.
    by inversion Hstep; subst.
  - unfold reply, poll_reply in Hstep.
    destruct (tasks st !! t) as [[]|]; try done; destruct r as [fetched|];
      try (by inversion Hstep; subst);
      pose proof (update_unrejected fetched st U) as U';
      destruct (update fetched st) as [st1 [[]|]]; simpl in *;
      by inversion Hstep; subst.
  - unfold poll_wake in Hstep. destruct (tasks st !! t) as [[]|]; try done.
    destruct (negb _); by inversion Hstep; subst.
  - unfold resume in Hstep.
    destruct (tasks st !! t) as [[]|]; try done;
      destruct (promises st !! p) as [[]|]; try done.
    + destruct (request_frame Hypervisor connects st) as (Hp & _). simpl in *.
      destruct (hypervisor connects st) as [st1 [r|]]; simpl in *;
        inversion Hstep; subst; by eapply unrejected_ext; [|exact U].
    + destruct (request_frame Agent connects st) as (Hp & _). simpl in *.
      destruct (agent connects st) as [st1 [r|]]; simpl in *;
        inversion Hstep; subst; by eapply unrejected_ext; [|exact U].
  - by inversion Hstep; subst.
Qed.

Lemma run_unrejected es :
  forall st st', run es st = Some st' -> unrejected st -> unrejected st'.
Proof.
  induction es as [|e es IH]; intros st st' Hrun U; simpl in Hrun.
  - by inversion Hrun; subst.
  - destruct (step e st) as [st1|] eqn:Hstep; [|done].
    eapply IH; [exact Hrun|]. by eapply step_unrejected.
Qed.

(** *** Registered closures belong to promises already made *)

Lemma promises_known_ext st st' :
  length (promises st) <= length (promises st') ->
  listeners st' = listeners st ->
  promises_known st -> promises_known st'.
Proof.
  unfold promises_known. intros Hlen -> K. eapply Forall_impl; [exact K|].
  intros [ev [|q cb|o]]; simpl; try done. lia.
Qed.

Lemma remove_last_Forall (P : string * listener -> Prop) ev l table :
  Forall P table -> Forall P (remove_last ev l table).
Proof.
  induction 1 as [|e rest He Hrest IH]; simpl; [done|].
  destruct (existsb _ rest); [by constructor|].
  destruct (_ && _); [done | by constructor].
Qed.

Lemma resolve_length q st : length (promises (resolve q st)) = length (promises st).
Proof.
  unfold resolve. destruct (promises st !! q) as [[]|]; simpl; try done.
  apply length_insert.
Qed.

Lemma change_promises_known q cb st :
  promises_known st -> promises_known (change q cb st).
Proof.
  intros K. destruct (satisfied cb (info st)) eqn:S.
  - rewrite change_satisfied by done. unfold promises_known.
    rewrite resolve_listeners, resolve_length. simpl.
    by apply remove_last_Forall.
  - by rewrite change_unsatisfied.
Qed.

Lemma call_listener_promises_known ev l st :
  promises_known st -> promises_known (call_listener ev l st).
Proof.
  intros K. destruct l; simpl; [|by apply change_promises_known|done].
  eapply promises_known_ext; [|apply manageUpdates_listeners|done].
  by rewrite manageUpdates_promises.
Qed.

Lemma emit_promises_known ev st : promises_known st -> promises_known (emit ev st).
Proof.
  intros K. unfold emit. apply fold_left_invariant; [done|].
  intros s l _. apply call_listener_promises_known.
Qed.

Lemma call_listener_length ev l st :
  length (promises (call_listener ev l st)) = length (promises st).
Proof.
  destruct l as [|q cb|o]; simpl; [by rewrite manageUpdates_promises| |done].
  destruct (satisfied cb (info st)) eqn:S.
  - rewrite change_satisfied by done. by rewrite resolve_length.
  - by rewrite change_unsatisfied.
Qed.

Lemma emit_length ev st : length (promises (emit ev st)) = length (promises st).
Proof.
  unfold emit.
  apply (fold_left_invariant (fun s => length (promises s) = length (promises st)));
    [done|].
  intros s l _ <-. apply call_listener_length.
Qed.

Lemma on_length ev l st : length (promises (on ev l st)) = length (promises st).
Proof.
  unfold on. simpl. destruct (listeners_of "newListener" st); [done|]. apply emit_length.
Qed.

Lemma on_promises_known ev l st :
  promises_known st ->
  match l with LWaiter q _ => q < length (promises st) | _ => True end ->
  promises_known (on ev l st).
Proof.
  intros K Hl. unfold on, promises_known. simpl.
  set (st1 := match listeners_of "newListener" st with [] => st | _ :: _ => _ end).
  assert (promises_known st1 /\ length (promises st1) = length (promises st)) as [K1 L1].
  { subst st1. destruct (listeners_of "newListener" st); [done|].
    split; [by apply emit_promises_known | apply emit_length]. }
  apply Forall_app. split; [exact K1|].
  constructor; [|constructor]. simpl. destruct l; try done. lia.
Qed.

Lemma waitFor_promises_known cb st :
  promises_known st -> promises_known (fst (_waitFor cb st)).
Proof.
  intros K. unfold _waitFor. simpl.
  apply change_promises_known, on_promises_known.
  - apply (promises_known_ext st); [|done|done]. simpl. rewrite length_app. lia.
  - simpl. rewrite length_app. simpl. lia.
Qed.

Lemma update_promises_known fetched st :
  promises_known st -> promises_known (fst (update fetched st)).
Proof.
  intros K. destruct (differs fetched (info st)) eqn:D.
  - rewrite update_changed by done. cbv zeta.
    assert (promises_known (emit "change" (set_info fetched st))) as K2
      by (by apply emit_promises_known).
    destruct (get _ _) as [v|]; [destruct (truthy v)|]; simpl; try done.
    by apply emit_promises_known.
  - by rewrite update_unchanged.
Qed.

Lemma step_promises_known e st st' :
  step e st = Some st' -> promises_known st -> promises_known st'.
Proof.
  intros Hstep K. destruct e; simpl in Hstep.
  - inversion Hstep; subst. by apply on_promises_known.
  - inversion Hstep; subst. unfold promises_known. simpl. by apply remove_last_Forall.
  - inversion Hstep; subst. by apply waitFor_promises_known.
  - inversion Hstep; subst. by apply waitFor_promises_known.
  - inversion Hstep; subst. by apply waitFor_promises_known.
  - inversion Hstep; subst. done.
  - inversion Hstep; subst. destruct (issue_frame c st) as (_ & Hp & Hl & _).
    eapply promises_known_ext; [|exact Hl|exact K]. simpl. by rewrite Hp.
  - inversion Hstep; subst. unfold hypervisor_call.
    pose proof (waitFor_promises_known vpn_ip_assigned st K) as K'.
    by destruct (_waitFor vpn_ip_assigned st).
  - inversion Hstep; subst. unfold agent_call.
    pose proof (waitFor_promises_known agent_present st K) as K'.
    by destruct (_waitFor agent_present st).
  - destruct (first_queued (tasks st)) as [t|]; [|done].
    unfold poll_start in Hstep. destruct (tasks st !! t) as [[]|]; try done.
    by inversion Hstep; subst.
  - unfold reply, poll_reply in Hstep.
    destruct (tasks st !! t) as [[]|]; try done; destruct r as [fetched|];
      try (by inversion Hstep; subst);
      pose proof (update_promises_known fetched st K) as K';
      destruct (update fetched st) as [st1 [[]|]]; simpl in *;
      by inversion Hstep; subst.
  - unfold poll_wake in Hstep. destruct (tasks st !! t) as [[]|]; try done.
    destruct (negb _); by inversion Hstep; subst.
  - unfold resume in Hstep.
    destruct (tasks st !! t) as [[]|]; try done;
      destruct (promises st !! p) as [[]|]; try done.
    + destruct (request_frame Hypervisor connects st) as (Hp & Hl & _). simpl in *.
      destruct (hypervisor connects st) as [st1 [r|]]; simpl in *;
        inversion Hstep; subst;
        (eapply promises_known_ext; [|exact Hl|exact K]); simpl; by rewrite Hp.
    + destruct (request_frame Agent connects st) as (Hp & Hl & _). simpl in *.
      destruct (agent connects st) as [st1 [r|]]; simpl in *;
        inversion Hstep; subst;
        (eapply promises_known_ext; [|exact Hl|exact K]); simpl; by rewrite Hp.
  - by inversion Hstep; subst.
Qed.

(** Every state the handle can reach from its constructor has the property. *)
Lemma run_promises_known es :
  forall st st', run es st = Some st' -> promises_known st -> promises_known st'.
Proof.
  induction es as [|e es IH]; intros st st' Hrun K; simpl in Hrun.
  - by inversion Hrun; subst.
  - destruct (step e st) as [st1|] eqn:Hstep; [|done].
    eapply IH; [exact Hrun|]. by eapply step_promises_known.
Qed.

Lemma new_Instance_promises_known api i st :
  new_Instance api i = Normal st -> promises_known st /\ unrejected st.
Proof.
  unfold new_Instance, bind. destruct (get (VJson i) "id"); [|done].
  intros H. inversion H; subst. split.
  - unfold promises_known. simpl. by repeat constructor.
  - intros p. simpl. by destruct p.
Qed.

(** What _waitFor leaves behind: the promise pending and the closure
    registered when the callback is not satisfied, the promise fulfilled
    when it is. *)
Lemma promises_known_absent st :
  promises_known st ->
  List.filter (waits_for (length (promises st))) (listeners st) = [].
Proof.
  unfold promises_known. induction 1 as [|[ev l] rest He Hrest IH]; simpl; [done|].
  unfold waits_for at 1. simpl. destruct l as [|q cb|o]; simpl in *; try done.
  replace (q =? length (promises st))%nat with false; [done|].
  symmetry. apply Nat.eqb_neq. lia.
Qed.

Lemma remove_last_absent p ev l table :
  List.filter (waits_for p) table = [] ->
  List.filter (waits_for p) (remove_last ev l table) = [].
Proof.
  induction table as [|e rest IH]; simpl; [done|].
  destruct (waits_for p e) eqn:We; [done|]. intros H.
  destruct (existsb _ rest); simpl.
  - rewrite We. by apply IH.
  - destruct (_ && _); simpl; [done|]. by rewrite We.
Qed.

Lemma emit_absent ev p st :
  promises st !! p = Some Pending ->
  List.filter (waits_for p) (listeners st) = [] ->
  promises (emit ev st) !! p = Some Pending /\
  List.filter (waits_for p) (listeners (emit ev st)) = [].
Proof.
  intros Hp Ha. unfold emit.
  apply (fold_left_invariant
           (fun s => promises s !! p = Some Pending /\
                     List.filter (waits_for p) (listeners s) = [])); [done|].
  intros s l Hin [Hps Has]. destruct l as [|q cb|o]; simpl.
  - by rewrite manageUpdates_promises, manageUpdates_listeners.
  - assert (q <> p) as Hne.
    { intros ->. apply in_listeners_of in Hin.
      assert (In (ev, LWaiter p cb) (List.filter (waits_for p) (listeners st))) as Hf.
      { apply filter_In. split; [done|]. unfold waits_for. simpl. apply Nat.eqb_refl. }
      by rewrite Ha in Hf. }
    destruct (satisfied cb (info s)) eqn:S.
    + rewrite change_satisfied by done. rewrite resolve_listeners. split.
      * by rewrite resolve_promises.
      * simpl. by apply remove_last_absent.
    + by rewrite change_unsatisfied.
  - done.
Qed.

Lemma waitFor_registers cb st :
  promises_known st ->
  let p := length (promises st) in
  let st2 := on "change" (LWaiter p cb) (set_promises (promises st ++ [Pending]) st) in
  waiting p cb st2 /\ info st2 = info st /\ snd (_waitFor cb st) = p /\
  fst (_waitFor cb st) = change p cb st2.
Proof.
  intros K p st2.
  assert (info st2 = info st) as Hi by (subst st2; by rewrite on_info).
  split; [|done].
  clear Hi.
  set (st1 := set_promises (promises st ++ [Pending]) st).
  assert (promises st1 !! p = Some Pending) as Hp.
  { subst st1 p. simpl. rewrite lookup_app_r by lia. by rewrite Nat.sub_diag. }
  assert (List.filter (waits_for p) (listeners st1) = []) as Ha
    by (by apply (promises_known_absent st)).
  subst st2. unfold on. fold st1.
  set (st1' := match listeners_of "newListener" st1 with [] => st1 | _ :: _ => _ end).
  assert (promises st1' !! p = Some Pending /\
          List.filter (waits_for p) (listeners st1') = []) as [Hp' Ha'].
  { subst st1'. destruct (listeners_of "newListener" st1); [done|].
    by apply emit_absent. }
  split; [done|]. simpl. rewrite List.filter_app, Ha'. simpl.
  unfold waits_for at 1. simpl. by rewrite Nat.eqb_refl.
Qed.

Lemma waitFor_unsatisfied cb st :
  promises_known st -> satisfied cb (info st) = false ->
  still_waiting (snd (_waitFor cb st)) cb (fst (_waitFor cb st)).
Proof.
  intros K S. destruct (waitFor_registers cb st K) as (W & Hi & -> & ->).
  rewrite change_unsatisfied by (by rewrite Hi).
  split; [done | by rewrite Hi].
Qed.

Lemma waitFor_satisfied cb st :
  promises_known st -> satisfied cb (info st) = true ->
  fulfilled (snd (_waitFor cb st)) (fst (_waitFor cb st)).
Proof.
  intros K S. destruct (waitFor_registers cb st K) as (W & Hi & -> & ->).
  rewrite change_satisfied by (by rewrite Hi).
  apply resolve_pending. simpl. apply W.
Qed.

(** *** The listener table under notifications *)

Lemma remove_last_filter_le (f : string * listener -> bool) ev l table :
  length (List.filter f (remove_last ev l table)) <= length (List.filter f table).
Proof.
  induction table as [|e rest IH]; simpl; [done|].
  destruct (existsb _ rest); simpl.
  - destruct (f e); simpl; lia.
  - destruct (_ && _); simpl; destruct (f e); simpl; lia.
Qed.

Lemma remove_last_filter_other ev' ev l table :
  ev' <> ev ->
  List.filter (fun el => String.eqb (fst el) ev') (remove_last ev l table)
  = List.filter (fun el => String.eqb (fst el) ev') table.
Proof.
  intros Hne. induction table as [|e rest IH]; simpl; [done|].
  destruct (existsb _ rest); simpl.
  - by rewrite IH.
  - destruct (String.eqb (fst e) ev) eqn:E; simpl; [|done].
    destruct (same_listener (snd e) l); [|done].
    apply String.eqb_eq in E.
    replace (String.eqb (fst e) ev') with false; [done|].
    symmetry. apply String.eqb_neq. congruence.
Qed.

Lemma call_listener_count ev' ev l st :
  listenerCount ev' (call_listener ev l st) <= listenerCount ev' st.
Proof.
  unfold listenerCount, listeners_of. rewrite !length_map.
  destruct l as [|q cb|o]; simpl; [by rewrite manageUpdates_listeners| |done].
  destruct (satisfied cb (info st)) eqn:S.
  - rewrite change_satisfied by done. rewrite resolve_listeners. simpl.
    apply remove_last_filter_le.
  - by rewrite change_unsatisfied.
Qed.

Lemma emit_count ev' ev st : listenerCount ev' (emit ev st) <= listenerCount ev' st.
Proof.
  unfold emit.
  apply (fold_left_invariant (fun s => listenerCount ev' s <= listenerCount ev' st));
    [done|].
  intros s l _ H. pose proof (call_listener_count ev' ev l s). lia.
Qed.

Lemma update_count ev fetched st :
  listenerCount ev (fst (update fetched st)) <= listenerCount ev st.
Proof.
  destruct (differs fetched (info st)) eqn:D.
  - rewrite update_changed by done. cbv zeta.
    pose proof (emit_count ev "change" (set_info fetched st)) as H1.
    pose proof (emit_count ev "panic" (emit "change" (set_info fetched st))) as H2.
    change (listenerCount ev (set_info fetched st)) with (listenerCount ev st) in H1.
    destruct (get _ _) as [v|]; [destruct (truthy v)|]; simpl; lia.
  - by rewrite update_unchanged.
Qed.

Lemma call_listener_listeners_of ev' ev l st :
  ev' <> "change"%string ->
  listeners_of ev' (call_listener ev l st) = listeners_of ev' st.
Proof.
  intros Hne. unfold listeners_of.
  destruct l as [|q cb|o]; simpl; [by rewrite manageUpdates_listeners| |done].
  destruct (satisfied cb (info st)) eqn:S.
  - rewrite change_satisfied by done. rewrite resolve_listeners. simpl.
    by rewrite remove_last_filter_other.
  - by rewrite change_unsatisfied.
Qed.

Lemma emit_listeners_of ev' ev st :
  ev' <> "change"%string -> listeners_of ev' (emit ev st) = listeners_of ev' st.
Proof.
  intros Hne. unfold emit.
  apply (fold_left_invariant (fun s => listeners_of ev' s = listeners_of ev' st));
    [done|].
  intros s l _ <-. by apply call_listener_listeners_of.
Qed.

Lemma update_listeners_of ev fetched st :
  ev <> "change"%string ->
  listeners_of ev (fst (update fetched st)) = listeners_of ev st.
Proof.
  intros Hne. destruct (differs fetched (info st)) eqn:D.
  - rewrite update_changed by done. cbv zeta.
    destruct (get _ _) as [v|]; [destruct (truthy v)|]; simpl;
      by rewrite !emit_listeners_of.
  - by rewrite update_unchanged.
Qed.

(** What notifications leave alone in the loop's own state. *)

Lemma call_listener_tasks_quiet ev l st :
  l <> LManageUpdates -> tasks (call_listener ev l st) = tasks st /\
                         updating (call_listener ev l st) = updating st.
Proof.
  destruct l as [|q cb|o]; [done| |done]. intros _. simpl.
  by rewrite change_tasks, change_updating.
Qed.

Lemma call_listener_updating ev l st :
  updating (call_listener ev l st) = updating st.
Proof.
  destruct l as [|q cb|o]; simpl; [|apply change_updating|done].
  unfold manageUpdates. by destruct (updating st) eqn:E.
Qed.

Lemma emit_updating ev st : updating (emit ev st) = updating st.
Proof.
  unfold emit.
  apply (fold_left_invariant (fun s => updating s = updating st)); [done|].
  intros s l _ <-. apply call_listener_updating.
Qed.

(** With the constructor's hook in place, registering a listener runs
    manageUpdates once and then stores the listener. *)
Lemma on_hooked ev l st :
  listeners_of "newListener" st = [LManageUpdates] ->
  on ev l st =
    let st1 := manageUpdates (log (Emitted "newListener") st) in
    set_listeners (listeners st1 ++ [(ev, l)]) st1.
Proof. unfold on, emit. by intros ->. Qed.

(** *** The polling loop *)

Lemma update_returns fetched st :
  fetched <> JNull -> snd (update fetched st) = Normal tt.
Proof.
  intros Hn. unfold update. destruct (negb _); [|done].
  destruct fetched; try done; simpl; by destruct (truthy _).
Qed.

Lemma update_tasks_unhooked fetched st :
  ~ In LManageUpdates (listeners_of "change" st) ->
  ~ In LManageUpdates (listeners_of "panic" st) ->
  tasks (fst (update fetched st)) = tasks st.
Proof.
  intros Hc Hp.
  assert (forall ev s, ~ In LManageUpdates (listeners_of ev s) ->
                       tasks (emit ev s) = tasks s) as Hemit.
  { intros ev s Hn. unfold emit.
    apply (fold_left_invariant (fun x => tasks x = tasks s)); [done|].
    intros x l Hin <-. apply call_listener_tasks_quiet. by intros ->. }
  destruct (differs fetched (info st)) eqn:D.
  - rewrite update_changed by done. cbv zeta.
    destruct (get _ _) as [v|]; [destruct (truthy v)|]; simpl;
      rewrite ?Hemit; try done.
    by rewrite emit_listeners_of.
  - by rewrite update_unchanged.
Qed.

Lemma update_updating fetched st : updating (fst (update fetched st)) = updating st.
Proof.
  destruct (differs fetched (info st)) eqn:D.
  - rewrite update_changed by done. cbv zeta.
    destruct (get _ _) as [v|]; [destruct (truthy v)|]; simpl; by rewrite !emit_updating.
  - by rewrite update_unchanged.
Qed.

(** Notifications can only add tasks, at the end. *)
Lemma call_listener_tasks_prefix ev l st :
  exists extra, tasks (call_listener ev l st) = tasks st ++ extra.
Proof.
  destruct l as [|q cb|o]; simpl.
  - unfold manageUpdates. destruct (updating st).
    + exists []. by rewrite app_nil_r.
    + by exists [Queued].
  - exists []. by rewrite app_nil_r, change_tasks.
  - exists []. by rewrite app_nil_r.
Qed.

Lemma emit_tasks_prefix ev st : exists extra, tasks (emit ev st) = tasks st ++ extra.
Proof.
  unfold emit.
  apply (fold_left_invariant (fun s => exists extra, tasks s = tasks st ++ extra)).
  - exists []. by rewrite app_nil_r.
  - intros s l _ [e1 H1]. destruct (call_listener_tasks_prefix ev l s) as [e2 H2].
    exists (e1 ++ e2). by rewrite H2, H1, app_assoc.
Qed.

Lemma update_tasks_prefix fetched st :
  exists extra, tasks (fst (update fetched st)) = tasks st ++ extra.
Proof.
  destruct (differs fetched (info st)) eqn:D.
  - rewrite update_changed by done. cbv zeta.
    destruct (emit_tasks_prefix "change" (set_info fetched st)) as [e1 H1].
    destruct (emit_tasks_prefix "panic" (emit "change" (set_info fetched st))) as [e2 H2].
    destruct (get _ _) as [v|]; [destruct (truthy v)|]; simpl.
    + exists (e1 ++ e2). by rewrite H2, H1, app_assoc.
    + by exists e1.
    + by exists e1.
  - rewrite update_unchanged by done. exists []. by rewrite app_nil_r.
Qed.

Lemma update_task fetched st t x :
  tasks st !! t = Some x -> tasks (fst (update fetched st)) !! t = Some x.
Proof.
  intros H. destruct (update_tasks_prefix fetched st) as [extra ->].
  by apply lookup_app_l_Some.
Qed.

Lemma first_queued_lookup l t : first_queued l = Some t -> l !! t = Some Queued.
Proof.
  revert t. induction l as [|x l IH]; intros t H; simpl in H; [done|].
  destruct x; try (by inversion H);
    destruct (first_queued l) as [t'|]; simpl in H; try done;
    inversion H; subst; simpl; by apply IH.
Qed.

Lemma first_queued_app l : exists t, first_queued (l ++ [Queued]) = Some t.
Proof.
  induction l as [|x l [t IH]]; simpl; [by exists 0|].
  destruct x; try (by exists 0); rewrite IH; by eexists.
Qed.

(** The sleep ends with nobody listening for 'change': the loop clears the
    flag and returns. *)
Lemma wake_stops t st :
  tasks st !! t = Some Sleeping -> listenerCount "change" st = 0 ->
  poll_wake t st = Some (set_task t Finished (set_updating false st)).
Proof. unfold poll_wake. by intros -> ->. Qed.

(** The fetch of the loop comes back with a snapshot: update() runs and the
    loop goes to sleep. *)
Lemma reply_sleeps t fetched st :
  tasks st !! t = Some Fetching -> fetched <> JNull ->
  step (Reply t (Some fetched)) st = Some (set_task t Sleeping (fst (update fetched st))).
Proof.
  intros Ht Hn. simpl. unfold reply, poll_reply. rewrite Ht.
  pose proof (update_returns fetched st Hn) as R.
  destruct (update fetched st) as [st1 c]. simpl in *. by subst.
Qed.

(** A loop that is fetching, with nobody listening for 'change', is over
    after this fetch and this sleep, and has made no other request. *)
Lemma fetching_stops t fetched st :
  tasks st !! t = Some Fetching -> listenerCount "change" st = 0 -> fetched <> JNull ->
  exists st',
    run [Reply t (Some fetched); Timer t] st = Some st' /\
    tasks st' !! t = Some Finished /\ updating st' = false /\
    requests (trace st') = requests (trace st) /\
    listeners_of "newListener" st' = listeners_of "newListener" st.
Proof.
  intros Ht Hc Hn.
  pose proof (update_task fetched st t Fetching Ht) as Ht1.
  pose proof (update_count "change" fetched st) as Hc1.
  set (st1 := fst (update fetched st)) in *.
  exists (set_task t Finished (set_updating false (set_task t Sleeping st1))).
  split.
  - cbn [run]. rewrite (reply_sleeps t fetched st Ht Hn). fold st1.
    cbn [step]. rewrite wake_stops; [done| |].
    + simpl. apply list_lookup_insert_eq. by apply lookup_lt_Some in Ht1.
    + change (listenerCount "change" (set_task t Sleeping st1))
        with (listenerCount "change" st1). lia.
  - simpl. split; [|split; [done|split]].
    + apply list_lookup_insert_eq. rewrite length_insert. by apply lookup_lt_Some in Ht1.
    + subst st1. apply update_requests.
    + change (listeners_of "newListener" (set_task t Finished
               (set_updating false (set_task t Sleeping st1))))
        with (listeners_of "newListener" st1).
      subst st1. by apply update_listeners_of.
Qed.

(** With the flag clear and the hook in place, a registration followed by a
    tick starts a loop: the flag is set and a fetch is under way. *)
Lemma registration_starts_loop ev o st :
  updating st = false -> listeners_of "newListener" st = [LManageUpdates] ->
  exists st',
    run [CallOn ev o; Tick] st = Some st' /\
    updating st' = true /\
    requests (trace st') = S (requests (trace st)).
Proof.
  intros Hu Hook. cbn [run step]. rewrite on_hooked by exact Hook. cbv zeta.
  unfold manageUpdates. simpl. rewrite Hu. simpl.
  destruct (first_queued_app (tasks st)) as [t' Ht']. rewrite Ht'.
  unfold poll_start. simpl. rewrite (first_queued_lookup _ _ Ht').
  eexists. split; [reflexivity|]. simpl. split; [done|]. count_effects.
Qed.

(** *** The channel accessors *)

Lemma disconnect_heap_length r st : length (heap (disconnect r st)) = length (heap st).
Proof. unfold disconnect. simpl. apply length_alter. Qed.

(** What a request does, by the state of the stored channel and by
    whether the connection of a new channel can be established. *)
Lemma request_stored k c st r target :
  stored k st = Some r -> derived_endpoint k st = Normal target ->
  request k c st =
    if stream_active r st then
      if String.eqb target (stream_endpoint r st) then (st, Normal r)
      else if c then
        match k with
        | Hypervisor =>
            (set_hypervisorStream (Some (length (heap st)))
               (fst (construct k target true (set_hypervisorStream None (disconnect r st)))),
             Normal (length (heap st)))
        | Agent =>
            (set_agentStream (Some (length (heap st)))
               (fst (construct k target true (set_agentStream None (disconnect r st)))),
             Normal (length (heap st)))
        end
      else
        match k with
        | Hypervisor => (set_hypervisorStream None (disconnect r st), Throw)
        | Agent => (set_agentStream None (disconnect r st), Throw)
        end
    else if c then
      match k with
      | Hypervisor =>
          (set_hypervisorStream (Some (length (heap st))) (fst (construct k target true st)),
           Normal (length (heap st)))
      | Agent =>
          (set_agentStream (Some (length (heap st))) (fst (construct k target true st)),
           Normal (length (heap st)))
      end
    else (st, Throw).
Proof.
  destruct k, c; simpl; intros Hs He; unfold hypervisor, agent; rewrite He, Hs;
    destruct (stream_active r st); try done;
    destruct (String.eqb _ _); try done;
    simpl; by rewrite length_alter.
Qed.

Lemma request_unstored k c st target :
  stored k st = None -> derived_endpoint k st = Normal target ->
  request k c st =
    if c then
      match k with
      | Hypervisor =>
          (set_hypervisorStream (Some (length (heap st))) (fst (construct k target true st)),
           Normal (length (heap st)))
      | Agent =>
          (set_agentStream (Some (length (heap st))) (fst (construct k target true st)),
           Normal (length (heap st)))
      end
    else (st, Throw).
Proof.
  destruct k, c; simpl; intros Hs He; unfold hypervisor, agent; by rewrite He, Hs.
Qed.


(** What a request leaves in the trace, by the state of the stored channel
    and by whether the connection of a new channel can be established. *)
Lemma request_outcome k c st r target :
  stored k st = Some r -> derived_endpoint k st = Normal target ->
  let st' := fst (request k c st) in
  let fresh := length (heap st) in
  if stream_active r st then
    if String.eqb target (stream_endpoint r st) then request k c st = (st, Normal r)
    else if c then
      snd (request k c st) = Normal fresh /\ stored k st' = Some fresh /\
      trace st' = trace st ++ [Disconnected r; Constructed k fresh target] /\
      disconnects r (trace st') = S (disconnects r (trace st))
    else
      snd (request k c st) = Throw /\ stored k st' = None /\
      trace st' = trace st ++ [Disconnected r] /\
      disconnects r (trace st') = S (disconnects r (trace st))
  else if c then
    snd (request k c st) = Normal fresh /\ stored k st' = Some fresh /\
    trace st' = trace st ++ [Constructed k fresh target] /\
    disconnects r (trace st') = disconnects r (trace st)
  else request k c st = (st, Throw).
Proof.
  intros Hs He st' fresh.
  subst st'. rewrite (request_stored k c st r target Hs He).
  destruct (stream_active r st); [destruct (String.eqb _ _); [done|]|]; destruct c; try done.
  - destruct k; simpl; rewrite length_alter, <- app_assoc; simpl;
      repeat (split; [done|]);
      unfold disconnects; rewrite List.filter_app, length_app; simpl;
      rewrite Nat.eqb_refl; simpl; lia.
  - destruct k; simpl; repeat (split; [done|]);
      unfold disconnects; rewrite List.filter_app, length_app; simpl;
      rewrite Nat.eqb_refl; simpl; lia.
  - destruct k; simpl; repeat (split; [done|]);
      unfold disconnects; rewrite List.filter_app, length_app; simpl; lia.
Qed.


(** Whatever the comparison says, the cache holds the fetched snapshot
    after update(). *)
Lemma update_caches fetched st : info (fst (update fetched st)) = fetched.
Proof.
  rewrite update_info. destruct (differs fetched (info st)) eqn:D; [done|].
  unfold differs in D. apply negb_false_iff, String.eqb_eq in D.
  symmetry. by apply JsonFacts.stringify_inj.
Qed.

(** *** The callback of waitForState, by the state field *)

Lemma has_state_iff target i :
  has_state target i = true <-> state_field_is target i.
Proof.
  unfold has_state, satisfied, state_is, state_field_is, JS.bind.
  destruct (get (VJson i) "state") as [v|]; simpl; [|done].
  destruct v as [|[]]; simpl; try done.
  split.
  - intros E. apply String.eqb_eq in E. by subst.
  - intros E. injection E as ->. apply String.eqb_refl.
Qed.

Lemma has_state_false target i :
  has_state target i = false <-> ~ state_field_is target i.
Proof.
  rewrite <- has_state_iff. by destruct (has_state target i).
Qed.

Lemma no_reply_has_state_satisfies target es :
  no_reply_has_state target es -> no_reply_satisfies (state_is target) es.
Proof.
  unfold no_reply_has_state, no_reply_satisfies. intros H.
  eapply Forall_impl; [exact H|]. intros [] Hx; try done.
  destruct r; [|done]. by apply has_state_false.
Qed.

(** * The claims *)

(** C1 (the code departs from it).  update() compares the two snapshots by
    their JSON.stringify strings.  A fetched snapshot with the same field
    values as the cached one, but with its keys in another order, is equal
    to it structurally and yet replaces it and makes one 'change'
    notification. *)
Theorem update_replaces_on_key_order :
  structurally_equal snapshot_off_reordered (info off_handle) = true /\
  info (fst (update snapshot_off_reordered off_handle)) = snapshot_off_reordered /\
  info (fst (update snapshot_off_reordered off_handle)) <> info off_handle /\
  emitted "change" (trace (fst (update snapshot_off_reordered off_handle)))
  = S (emitted "change" (trace off_handle)).
Proof.
  split; [reflexivity|]. split; [reflexivity|]. split; [discriminate|]. reflexivity.
Qed.

(** C3 (the code departs from it).  manageUpdates reads [updating] at once
    but the flag is only set when the nextTick callback runs, so two
    registrations in one synchronous turn both find it clear: two callbacks
    are queued, and after their ticks two polling loops fetch side by
    side. *)
Theorem two_registrations_two_loops :
  tasks (after [CallOn "change" 1; CallOn "change" 2] off_handle) = [Queued; Queued] /\
  run [CallOn "change" 1; CallOn "change" 2; Tick; Tick] off_handle
  = Some (after [CallOn "change" 1; CallOn "change" 2; Tick; Tick] off_handle) /\
  polling_tasks (after [CallOn "change" 1; CallOn "change" 2; Tick; Tick] off_handle) = 2 /\
  requests (trace (after [CallOn "change" 1; CallOn "change" 2; Tick; Tick] off_handle)) = 2.
Proof.
  split; [vm_compute; reflexivity|].
  split; [vm_compute; reflexivity|].
  split; vm_compute; reflexivity.
Qed.

(** C8 fails on the code: a handle whose cached snapshot is already
    panicked is refreshed with a snapshot that is still panicked and only
    has another name; 'panic' is notified again. *)
Lemma panic_repeats_while_panicked :
  ~ panic_only_when_newly_entered (handle_of (panicked_info "a")) (panicked_info "b").
Proof.
  unfold panic_only_when_newly_entered. intros [H _].
  assert (panicked (info (handle_of (panicked_info "a"))) = false) as E
    by (apply H; reflexivity).
  discriminate E.
Qed.

(** C8, amended.  update() makes one 'panic' notification exactly when the
    fetched snapshot differs from the cached one (as update() compares
    them: they are not the same value, key order included) and its
    [panicked] field is truthy, whether or not the cached snapshot was
    already panicked; otherwise it makes none. *)
Theorem panic_when_changed_and_panicked (st : Instance) (fetched : json) :
  (differs fetched (info st) = true <-> fetched <> info st) /\
  emitted "panic" (trace (fst (update fetched st)))
  = emitted "panic" (trace st)
    + (if differs fetched (info st) && panicked fetched then 1 else 0).
Proof. split; [apply differs_spec | apply update_emitted_panic]. Qed.

(** C9.  A command is the remote call and nothing else: issuing it, and
    later receiving its reply, leave the cached snapshot and so the name,
    state and flavor getters as they were.  With the cached snapshot
    [{state:'off'}], the state getter still gives 'off' after start(). *)
Theorem commands_leave_snapshot (c : command) (st : Instance) (r : option json) :
  info (issue c st) = info st /\
  name (issue c st) = name st /\
  state (issue c st) = state st /\
  flavor (issue c st) = flavor st /\
  option_map info (run [CallCommand c; Reply (length (tasks st)) r] st) = Some (info st) /\
  state (start (handle_of (JObj [("state"%string, JStr "off")])))
  = Normal (VJson (JStr "off")) /\
  option_map state
    (run [CallCommand CStart; Reply 0 r] (handle_of (JObj [("state"%string, JStr "off")])))
  = Some (Normal (VJson (JStr "off"))).
Proof.
  destruct (issue_frame c st) as (Hi & _ & _ & Ht & _).
  split; [done|]. unfold name, state, flavor. rewrite Hi.
  repeat (split; [done|]).
  split; [|split; [reflexivity | by destruct r]].
  simpl. unfold reply. simpl. rewrite Ht.
  rewrite lookup_app_r by lia. rewrite Nat.sub_diag. simpl.
  destruct r; simpl; by rewrite Hi.
Qed.

(** C10 fails on the code: on a handle whose loop is running, [updating] is
    set and the hook returns at once; a _waitFor whose predicate already
    holds schedules nothing and causes no fetch. *)
Lemma waitFor_while_polling_schedules_nothing :
  ~ waitFor_always_schedules polling_handle (state_is "off").
Proof.
  unfold waitFor_always_schedules. intros [H _]. vm_compute in H. discriminate H.
Qed.

(** C10, amended.  Every call of _waitFor, also one whose predicate already
    holds, registers its 'change' listener before it evaluates the
    predicate, and registering runs the newListener hook.  When [updating]
    is clear the hook schedules a polling task, which does a remote fetch
    as soon as it starts, and cannot test the listener count before that
    fetch is back and the sleep is over.  When [updating] is set the hook
    does nothing: no task is scheduled and the call causes no fetch. *)
Theorem waitFor_schedules_unless_updating (cb : json -> completion jsval) (st : Instance) :
  listeners_of "newListener" st = [LManageUpdates] ->
  let st1 := fst (_waitFor cb st) in
  let t := length (tasks st) in
  emitted "newListener" (trace st1) = S (emitted "newListener" (trace st)) /\
  requests (trace st1) = requests (trace st) /\
  if updating st then tasks st1 = tasks st
  else
    tasks st1 = tasks st ++ [Queued] /\
    exists st2,
      poll_start t st1 = Some st2 /\
      trace st2 = trace st1 ++ [Request ("/instances/" +:+ to_string (id st) +:+ "") "GET" None] /\
      tasks st2 !! t = Some Fetching /\
      poll_wake t st2 = None.
Proof.
  intros Hook st1 t.
  assert (st1 = change (length (promises st)) cb
                  (on "change" (LWaiter (length (promises st)) cb)
                     (set_promises (promises st ++ [Pending]) st))) as E by reflexivity.
  rewrite on_hooked in E by exact Hook. cbv zeta in E.
  assert (emitted "newListener" (trace st1) = S (emitted "newListener" (trace st)) /\
          requests (trace st1) = requests (trace st) /\
          tasks st1 = (if updating st then tasks st else tasks st ++ [Queued]) /\
          id st1 = id st) as (He & Hr & Ht & Hid).
  { rewrite E. rewrite change_emitted, change_requests, change_tasks.
    unfold manageUpdates. simpl.
    destruct (updating st); simpl; (split; [count_effects|]);
      (split; [count_effects|]); (split; [done|]);
      unfold change, resolve; simpl;
      destruct (match cb (info st) with Normal v => truthy v | Throw => false end);
      simpl; try done;
      by destruct (_ !! length (promises st)) as [[]|]. }
  split; [done|]. split; [done|].
  destruct (updating st); [done|]. split; [done|].
  unfold poll_start, poll_wake. rewrite Ht.
  rewrite lookup_app_r by lia. subst t. rewrite Nat.sub_diag. simpl.
  eexists. split; [reflexivity|]. simpl. rewrite Hid, Ht.
  split; [done|].
  rewrite list_lookup_insert_eq by (rewrite length_app; simpl; lia).
  done.
Qed.

(** The handle [polling_handle], where [updating] is set, and [off_handle],
    where it is clear, both have the hook in place. *)
Lemma waitFor_schedules_unless_updating_witness :
  listeners_of "newListener" off_handle = [LManageUpdates] /\
  tasks (fst (_waitFor (state_is "off") off_handle)) = [Queued].
Proof.
  split; [reflexivity|].
  pose proof (waitFor_schedules_unless_updating (state_is "off") off_handle eq_refl) as H.
  cbv zeta in H. destruct H as (_ & _ & H).
  change (updating off_handle) with false in H. exact (proj1 H).
Defined.

(** C5 fails on the code when the fetch of the last cycle fails: the loop
    of [failed_handle] has ended and nobody listens, but the flag is still
    set, so the next 'change' registration schedules nothing and no fetch
    follows. *)
Lemma failed_fetch_is_not_rearmed :
  tasks failed_handle = [Crashed] /\
  updating failed_handle = true /\
  listenerCount "change" failed_handle = 0 /\
  tasks (on "change" (LObserver 2) failed_handle) = [Crashed] /\
  ~ rearmable failed_handle.
Proof.
  split; [vm_compute; reflexivity|]. split; [vm_compute; reflexivity|].
  split; [vm_compute; reflexivity|]. split; [vm_compute; reflexivity|].
  intros H. destruct (H eq_refl eq_refl 2) as (st' & Hrun & _).
  vm_compute in Hrun. discriminate Hrun.
Qed.

(** C5, amended.  Once nobody listens for 'change', a polling loop is not
    stopped by the removal itself (removing a listener leaves the tasks as
    they are) but ends with the cycle it is in, provided the fetch of that
    cycle succeeds and brings a snapshot: the events left in the cycle
    then take the task to [Finished] with the flag cleared, after at most
    one more request.  After that the next registration, followed by a
    tick, starts a loop again. *)
Theorem polling_stops_then_rearms
    (st : Instance) (t : nat) (x : task) (fetched : json) (o : nat) :
  tasks st !! t = Some x -> polling x = true ->
  (x = Queued -> first_queued (tasks st) = Some t) ->
  listenerCount "change" st = 0 ->
  listeners_of "newListener" st = [LManageUpdates] ->
  fetched <> JNull ->
  (forall ev l, tasks (removeListener ev l st) = tasks st) /\
  (forall p cb, tasks (change p cb st) = tasks st) /\
  exists st',
    run (rest_of_cycle t (Some fetched) x) st = Some st' /\
    tasks st' !! t = Some Finished /\ updating st' = false /\
    requests (trace st') <= S (requests (trace st)) /\
    exists st'',
      run [CallOn "change" o; Tick] st' = Some st'' /\
      updating st'' = true /\
      requests (trace st'') = S (requests (trace st')).
Proof.
  intros Ht Hx Hq Hc Hook Hn.
  split; [done|]. split; [intros; apply change_tasks|].
  assert (exists st',
             run (rest_of_cycle t (Some fetched) x) st = Some st' /\
             tasks st' !! t = Some Finished /\ updating st' = false /\
             requests (trace st') <= S (requests (trace st)) /\
             listeners_of "newListener" st' = [LManageUpdates])
    as (st' & Hrun & Hfin & Hu & Hreq & Hook').
  { destruct x; try discriminate Hx.
    - (* queued: the tick starts the loop, which fetches once *)
      specialize (Hq eq_refl). cbn [rest_of_cycle run step]. rewrite Hq.
      unfold poll_start. rewrite Ht.
      set (sA := set_task t Fetching (update_call (set_updating true st))).
      destruct (fetching_stops t fetched sA) as (st' & Hrun & Hfin & Hu & Hreq & Hl);
        [|done|done|].
      + subst sA. simpl. apply list_lookup_insert_eq. by apply lookup_lt_Some in Ht.
      + exists st'. split; [exact Hrun|]. split; [done|]. split; [done|].
        split; [|by rewrite Hl].
        rewrite Hreq. subst sA. simpl. count_effects.
    - (* fetching *)
      destruct (fetching_stops t fetched st Ht Hc Hn) as (st' & Hrun & Hfin & Hu & Hreq & Hl).
      exists st'. split; [exact Hrun|]. split; [done|]. split; [done|].
      split; [lia | by rewrite Hl].
    - (* sleeping *)
      exists (set_task t Finished (set_updating false st)).
      cbn [rest_of_cycle run step]. rewrite (wake_stops t st Ht Hc).
      split; [done|]. simpl. split; [|split; [done|split; [lia|done]]].
      apply list_lookup_insert_eq. by apply lookup_lt_Some in Ht. }
  exists st'. split; [done|]. split; [done|]. split; [done|]. split; [done|].
  by apply registration_starts_loop.
Qed.

(** A waitForState whose state is already there leaves a queued loop and
    no listener: the loop runs its one cycle and stops. *)
Lemma polling_stops_then_rearms_witness :
  exists st',
    run [Tick; Reply 0 (Some snapshot_on); Timer 0] (fst (waitForState "off" off_handle))
    = Some st' /\
    tasks st' !! 0 = Some Finished /\ updating st' = false.
Proof.
  destruct (polling_stops_then_rearms (fst (waitForState "off" off_handle)) 0 Queued
              snapshot_on 7) as (_ & _ & st' & Hrun & Hfin & Hu & _);
    try reflexivity; try discriminate.
  exists st'. split; [exact Hrun|]. split; [exact Hfin | exact Hu].
Defined.

(** C2 fails on the code in both halves: after the connection is lost the
    field still refers to the dead channel, and the next request replaces
    it without calling its disconnect. *)
Lemma dead_channel_kept_then_dropped :
  ~ stored_channels_live lost_handle /\
  ~ disconnected_before_replaced Hypervisor lost_handle.
Proof.
  split.
  - intros H. specialize (H Hypervisor 0 eq_refl). discriminate H.
  - intros H.
    specialize (H true 0 (fst (request Hypervisor true lost_handle)) 1 eq_refl eq_refl).
    assert (1 <> 0) as Hne by lia. specialize (H Hne). discriminate H.
Qed.

(** C2, amended.  A request gives the stored channel back only while it
    reports itself active and its endpoint is the derived one.  A stored
    channel that is active, with another endpoint, has its disconnect
    called exactly once, and only then is the replacement constructed and
    stored.  A stored channel that is not active is replaced without its
    disconnect being called; until then the field keeps referring to it.
    When the connection of the replacement cannot be established the
    request raises: after the disconnect, with the field cleared, in the
    first case; with nothing changed in the second. *)
Theorem stored_channel_replacement
    (k : channel_kind) (connects : bool) (st : Instance) (r : nat) (target : string) :
  stored k st = Some r -> derived_endpoint k st = Normal target ->
  let st' := fst (request k connects st) in
  let fresh := length (heap st) in
  stored k (connection_lost r st) = Some r /\
  if stream_active r st then
    if String.eqb target (stream_endpoint r st) then request k connects st = (st, Normal r)
    else if connects then
      snd (request k connects st) = Normal fresh /\ stored k st' = Some fresh /\
      trace st' = trace st ++ [Disconnected r; Constructed k fresh target] /\
      disconnects r (trace st') = S (disconnects r (trace st))
    else
      snd (request k connects st) = Throw /\ stored k st' = None /\
      trace st' = trace st ++ [Disconnected r] /\
      disconnects r (trace st') = S (disconnects r (trace st))
  else if connects then
    snd (request k connects st) = Normal fresh /\ stored k st' = Some fresh /\
    trace st' = trace st ++ [Constructed k fresh target] /\
    disconnects r (trace st') = disconnects r (trace st)
  else request k connects st = (st, Throw).
Proof.
  intros Hs He st' fresh. split; [by destruct k|].
  exact (request_outcome k connects st r target Hs He).
Qed.

(** On [lost_handle] the stored channel 0 is dead and is replaced by
    channel 1 without a disconnect. *)
Lemma stored_channel_replacement_witness :
  stored Hypervisor lost_handle = Some 0 /\
  trace (fst (request Hypervisor true lost_handle))
  = trace lost_handle ++ [Constructed Hypervisor 1 "https://host/api/c3po/c1"].
Proof.
  split; [reflexivity|].
  pose proof (stored_channel_replacement Hypervisor true lost_handle 0
                "https://host/api/c3po/c1" eq_refl eq_refl) as H.
  cbv zeta in H. destruct H as [_ H].
  change (stream_active 0 lost_handle) with false in H.
  destruct H as (_ & _ & H & _). exact H.
Defined.



(** C6.  waitForState(target) on a handle whose state getter already
    gives [target] returns with its promise fulfilled, no request having
    been made for it.  Otherwise the promise is pending when the call
    returns, stays pending through every run of events in which no reply
    brings a snapshot whose state is [target], and is fulfilled by the
    first refresh, in the loop or asked for from outside, whose snapshot
    has that state. *)
Theorem waitForState_resolution (st : Instance) (target : string) :
  promises_known st ->
  let st1 := fst (waitForState target st) in
  let p := snd (waitForState target st) in
  (state st = Normal (VJson (JStr target)) ->
   promises st1 !! p = Some Fulfilled /\ requests (trace st1) = requests (trace st)) /\
  (state st <> Normal (VJson (JStr target)) ->
   promises st1 !! p = Some Pending /\
   forall es st2,
     run es st1 = Some st2 -> no_reply_has_state target es ->
     promises st2 !! p = Some Pending /\
     forall t fetched,
       get (VJson fetched) "state" = Normal (VJson (JStr target)) ->
       tasks st2 !! t = Some Fetching \/ tasks st2 !! t = Some Refreshing ->
       exists st3,
         step (Reply t (Some fetched)) st2 = Some st3 /\
         state st3 = Normal (VJson (JStr target)) /\
         promises st3 !! p = Some Fulfilled).
Proof.
  intros K st1 p. split.
  - intros Hstate. apply (has_state_iff target (info st)) in Hstate.
    split; [by apply waitFor_satisfied|].
    subst st1. unfold waitForState, _waitFor. simpl.
    rewrite change_requests. unfold on. simpl.
    destruct (listeners_of "newListener" _); [done|]. by rewrite emit_requests.
  - intros Hstate. apply (has_state_false target (info st)) in Hstate.
    pose proof (waitFor_unsatisfied (state_is target) st K Hstate) as SW.
    fold (waitForState target st) in SW. fold st1 p in SW.
    split; [apply SW|].
    intros es st2 Hrun Hq. apply no_reply_has_state_satisfies in Hq.
    pose proof (run_still_waiting es p _ st1 st2 Hrun Hq SW) as SW2.
    split; [apply SW2|].
    intros t fetched Sf Ht.
    assert (fetched <> JNull) as Hn by (intros ->; discriminate Sf).
    assert (exists st3, step (Reply t (Some fetched)) st2 = Some st3 /\ info st3 = fetched)
      as (st3 & Hstep & Hinfo).
    { simpl. unfold reply, poll_reply.
      pose proof (update_returns fetched st2 Hn) as Hret.
      pose proof (update_caches fetched st2) as Hi.
      destruct Ht as [-> | ->]; destruct (update fetched st2) as [s c];
        simpl in Hret, Hi; subst c; by eexists. }
    exists st3. split; [done|]. split; [unfold state; by rewrite Hinfo|].
    apply (reply_fulfils t fetched p (state_is target) st2 st3); try done.
    by apply has_state_iff.
Qed.

(** On [off_handle]: waiting for 'off' is fulfilled at the call; waiting
    for 'on' is pending at the call, still pending when the loop has
    started, and fulfilled by the reply that says 'on'. *)
Lemma waitForState_resolution_witness :
  promises_known off_handle /\
  promises (fst (waitForState "off" off_handle)) !! snd (waitForState "off" off_handle)
  = Some Fulfilled /\
  promises (fst (waitForState "on" off_handle)) !! snd (waitForState "on" off_handle)
  = Some Pending /\
  exists st3,
    run [Tick; Reply 0 (Some snapshot_on)] (fst (waitForState "on" off_handle)) = Some st3 /\
    promises st3 !! 0 = Some Fulfilled.
Proof.
  assert (promises_known off_handle) as K
    by (unfold promises_known; simpl; repeat constructor).
  split; [exact K|].
  split; [exact (proj1 (proj1 (waitForState_resolution off_handle "off" K) eq_refl))|].
  assert (state off_handle <> Normal (VJson (JStr "on"))) as Hne by discriminate.
  destruct (proj2 (waitForState_resolution off_handle "on" K) Hne) as [Hp Hrun].
  split; [exact Hp|].
  destruct (Hrun [Tick] (after [Tick] (fst (waitForState "on" off_handle))) eq_refl)
    as [_ Hreply]; [repeat constructor|].
  destruct (Hreply 0 snapshot_on eq_refl (or_introl eq_refl)) as (st3 & Hstep & _ & Hf).
  exists st3. split; [|exact Hf].
  change (run [Tick; Reply 0 (Some snapshot_on)] (fst (waitForState "on" off_handle)))
    with (match step (Reply 0 (Some snapshot_on))
                  (after [Tick] (fst (waitForState "on" off_handle))) with
          | Some s => Some s
          | None => None
          end).
  by rewrite Hstep.
Defined.

(** C7.  A predicate that raises is a predicate that is not yet satisfied:
    each such evaluation leaves the handle exactly as it was.  A waiter
    whose predicate raises at the call is pending and registered when
    _waitFor returns, and stays so through every run of events in which
    the predicate raises on each snapshot brought by a reply; its promise
    is never rejected, whatever happens; and the first refresh on whose
    snapshot the predicate holds fulfils it. *)
Theorem throwing_predicate_is_swallowed
    (cb : json -> completion jsval) (st : Instance) :
  promises_known st -> unrejected st -> cb (info st) = Throw ->
  let st1 := fst (_waitFor cb st) in
  let p := snd (_waitFor cb st) in
  (forall q s, cb (info s) = Throw -> change q cb s = s) /\
  promises st1 !! p = Some Pending /\
  In ("change"%string, LWaiter p cb) (listeners st1) /\
  (forall es st2, run es st1 = Some st2 -> promises st2 !! p <> Some Rejected) /\
  (forall es st2,
      run es st1 = Some st2 ->
      Forall (fun e => match e with
                       | Reply _ (Some fetched) => cb fetched = Throw
                       | _ => True
                       end) es ->
      promises st2 !! p = Some Pending /\
      In ("change"%string, LWaiter p cb) (listeners st2) /\
      forall t fetched,
        satisfied cb fetched = true ->
        tasks st2 !! t = Some Fetching \/ tasks st2 !! t = Some Refreshing ->
        exists st3,
          step (Reply t (Some fetched)) st2 = Some st3 /\
          promises st3 !! p = Some Fulfilled).
Proof.
  intros K U T st1 p.
  assert (forall i, cb i = Throw -> satisfied cb i = false) as Hthrow
    by (intros i E; unfold satisfied; by rewrite E).
  pose proof (waitFor_unsatisfied cb st K (Hthrow _ T)) as SW. fold st1 p in SW.
  split; [intros q s E; by apply change_unsatisfied, Hthrow|].
  split; [apply SW|]. split; [apply waiting_registered, SW|].
  split.
  - intros es st2 Hrun. eapply run_unrejected; [exact Hrun|].
    by apply waitFor_unrejected.
  - intros es st2 Hrun Hes.
    assert (no_reply_satisfies cb es) as Hq.
    { unfold no_reply_satisfies. eapply Forall_impl; [exact Hes|].
      intros [] He; try done. destruct r; [by apply Hthrow | done]. }
    pose proof (run_still_waiting es p cb st1 st2 Hrun Hq SW) as SW2.
    split; [apply SW2|]. split; [apply waiting_registered, SW2|].
    intros t fetched Sf Ht.
    assert (exists st3, step (Reply t (Some fetched)) st2 = Some st3) as [st3 Hstep].
    { simpl. unfold reply, poll_reply.
      destruct Ht as [-> | ->]; destruct (update fetched st2) as [s [[]|]]; by eexists. }
    exists st3. split; [done|].
    by apply (reply_fulfils t fetched p cb st2 st3).
Qed.

(** On a handle whose snapshot has no [services], the predicate of
    hypervisor() raises: the waiter is left pending. *)
Lemma throwing_predicate_is_swallowed_witness :
  vpn_ip_assigned (info off_handle) = Throw /\
  promises (fst (_waitFor vpn_ip_assigned off_handle)) !! snd (_waitFor vpn_ip_assigned off_handle)
  = Some Pending.
Proof.
  split; [reflexivity|].
  assert (promises_known off_handle) as K
    by (unfold promises_known; simpl; repeat constructor).
  assert (unrejected off_handle) as U by (intros q; by destruct q).
  pose proof (throwing_predicate_is_swallowed vpn_ip_assigned off_handle K U eq_refl) as H.
  cbv zeta in H. exact (proj1 (proj2 H)).
Defined.

(** * Further properties of the handle *)

(** A second update() with the snapshot just cached finds nothing to do. *)
Lemma update_again fetched st :
  update fetched (fst (update fetched st)) = (fst (update fetched st), Normal tt).
Proof. apply update_unchanged. rewrite update_caches. apply differs_refl. Qed.

(** X1.  A refresh leaves the fetched snapshot in the cache, whatever was
    there, and the getters read it; it notifies 'change' once when the
    fetched value is not the cached one and not at all when it is; a
    second refresh with the same snapshot changes nothing. *)
Theorem refresh_caches_fetched (fetched : json) (st : Instance) :
  let st' := fst (update fetched st) in
  info st' = fetched /\
  name st' = get (VJson fetched) "name" /\
  state st' = get (VJson fetched) "state" /\
  flavor st' = get (VJson fetched) "flavor" /\
  (fetched = info st -> update fetched st = (st, Normal tt)) /\
  (fetched <> info st ->
   emitted "change" (trace st') = S (emitted "change" (trace st))) /\
  update fetched st' = (st', Normal tt).
Proof.
  intros st'. subst st'. unfold name, state, flavor. rewrite update_caches.
  repeat (split; [done|]).
  split; [|split; [|apply update_again]].
  - intros ->. apply update_unchanged, differs_refl.
  - intros Hne. apply differs_spec in Hne.
    rewrite update_emitted_change, Hne. lia.
Qed.

Lemma has_state_get target i :
  has_state target i = true <-> get (VJson i) "state" = Normal (VJson (JStr target)).
Proof.
  unfold has_state, satisfied, state_is, bind.
  destruct (get (VJson i) "state") as [v|]; [|split; discriminate].
  destruct v as [|[]]; simpl; try (split; discriminate).
  split.
  - intros E. apply String.eqb_eq in E. by subst.
  - intros E. inversion E. apply String.eqb_refl.
Qed.

(** A waiter made by _waitFor on an unsatisfied callback: pending through
    every run without a satisfying reply, fulfilled by the first refresh
    that brings one. *)
Lemma waitFor_run cb st :
  promises_known st -> satisfied cb (info st) = false ->
  let st1 := fst (_waitFor cb st) in
  let p := snd (_waitFor cb st) in
  promises st1 !! p = Some Pending /\
  forall es st2,
    run es st1 = Some st2 -> no_reply_satisfies cb es ->
    promises st2 !! p = Some Pending /\
    forall t fetched,
      satisfied cb fetched = true ->
      tasks st2 !! t = Some Fetching \/ tasks st2 !! t = Some Refreshing ->
      exists st3,
        step (Reply t (Some fetched)) st2 = Some st3 /\
        promises st3 !! p = Some Fulfilled.
Proof.
  intros K S st1 p.
  pose proof (waitFor_unsatisfied cb st K S) as SW. fold st1 p in SW.
  split; [apply SW|].
  intros es st2 Hrun Hq.
  pose proof (run_still_waiting es p _ st1 st2 Hrun Hq SW) as SW2.
  split; [apply SW2|].
  intros t fetched Sf Ht.
  assert (exists st3, step (Reply t (Some fetched)) st2 = Some st3) as [st3 Hstep].
  { simpl. unfold reply, poll_reply.
    destruct Ht as [-> | ->]; destruct (update fetched st2) as [s [[]|]]; by eexists. }
  exists st3. split; [done|].
  by apply (reply_fulfils t fetched p cb st2 st3).
Qed.

(** X2.  When waitForState(target) is fulfilled, the state getter gives
    [target]: in the state left by the refresh that fulfils a pending
    waiter, and at once when the cached state already is [target]. *)
Theorem state_is_target_when_resolved
    (target : string) (st : Instance) (p : nat) (fetched : json) :
  still_waiting p (state_is target) st -> has_state target fetched = true ->
  promises (fst (update fetched st)) !! p = Some Fulfilled /\
  state (fst (update fetched st)) = Normal (VJson (JStr target)) /\
  (forall st0,
      has_state target (info st0) = true ->
      state (fst (waitForState target st0)) = Normal (VJson (JStr target))).
Proof.
  intros [W S] Hf. split; [|split].
  - by apply (update_fulfils fetched p (state_is target)).
  - unfold state. rewrite update_caches. by apply has_state_get.
  - intros st0 H. unfold state, waitForState. rewrite waitFor_info.
    by apply has_state_get.
Qed.

Lemma state_is_target_when_resolved_witness :
  state (fst (update snapshot_on two_waiters)) = Normal (VJson (JStr "on")).
Proof.
  assert (still_waiting 0 (state_is "on") two_waiters) as SW0
    by (split; [split|]; reflexivity).
  exact (proj1 (proj2 (state_is_target_when_resolved "on" two_waiters 0 snapshot_on
                         SW0 eq_refl))).
Defined.

(** X3.  finishRestore() is fulfilled at the call whenever the cached
    state is not the string 'creating', which includes a snapshot with no
    state at all; when the state is 'creating' (or the snapshot is null,
    where reading the state raises) it is pending, stays pending while
    replies keep saying 'creating', and is fulfilled by the first refresh
    that says anything else. *)
Theorem finishRestore_resolution (st : Instance) :
  promises_known st ->
  let st1 := fst (finishRestore st) in
  let p := snd (finishRestore st) in
  (forall i,
      satisfied not_creating i =
      match get (VJson i) "state" with
      | Normal v => negb (strict_eq_string v "creating")
      | Throw => false
      end) /\
  (forall members,
      member "state" members = VUndefined -> satisfied not_creating (JObj members) = true) /\
  if satisfied not_creating (info st) then promises st1 !! p = Some Fulfilled
  else
    promises st1 !! p = Some Pending /\
    forall es st2,
      run es st1 = Some st2 -> no_reply_satisfies not_creating es ->
      promises st2 !! p = Some Pending /\
      forall t fetched,
        satisfied not_creating fetched = true ->
        tasks st2 !! t = Some Fetching \/ tasks st2 !! t = Some Refreshing ->
        exists st3,
          step (Reply t (Some fetched)) st2 = Some st3 /\
          promises st3 !! p = Some Fulfilled.
Proof.
  intros K st1 p.
  split.
  { intros i. unfold satisfied, not_creating, bind.
    by destruct (get (VJson i) "state"). }
  split.
  { intros members H. unfold satisfied, not_creating, bind. simpl. by rewrite H. }
  destruct (satisfied not_creating (info st)) eqn:S.
  - by apply waitFor_satisfied.
  - by apply waitFor_run.
Qed.

Lemma finishRestore_resolution_witness :
  promises_known off_handle /\
  promises (fst (finishRestore off_handle)) !! snd (finishRestore off_handle) = Some Fulfilled.
Proof.
  assert (promises_known off_handle) as K
    by (unfold promises_known; simpl; repeat constructor).
  split; [exact K|].
  pose proof (finishRestore_resolution off_handle K) as H.
  cbv zeta in H. destruct H as (_ & _ & H).
  change (satisfied not_creating (info off_handle)) with true in H. exact H.
Defined.

(** X4.  Two waiters on one handle are independent: a refresh whose
    snapshot satisfies the callback of one and not of the other fulfils the
    first and leaves the second pending and registered, whichever of the
    two was made first. *)
Theorem waiters_resolve_independently
    (p1 p2 : nat) (cb1 cb2 : json -> completion jsval) (fetched : json) (st : Instance) :
  still_waiting p1 cb1 st -> still_waiting p2 cb2 st ->
  satisfied cb1 fetched = true -> satisfied cb2 fetched = false ->
  let st' := fst (update fetched st) in
  promises st' !! p1 = Some Fulfilled /\
  promises st' !! p2 = Some Pending /\
  In ("change"%string, LWaiter p2 cb2) (listeners st').
Proof.
  intros [W1 S1] SW2 Sf1 Sf2 st'.
  split; [by apply (update_fulfils fetched p1 cb1)|].
  pose proof (update_still_waiting fetched p2 cb2 st SW2 Sf2) as [W2' _].
  split; [apply W2' | by apply waiting_registered].
Qed.

Lemma waiters_resolve_independently_witness :
  promises (fst (update snapshot_on two_waiters)) !! 0 = Some Fulfilled /\
  promises (fst (update snapshot_on two_waiters)) !! 1 = Some Pending.
Proof.
  assert (still_waiting 0 (state_is "on") two_waiters) as SW0
    by (split; [split|]; reflexivity).
  assert (still_waiting 1 (state_is "deleted") two_waiters) as SW1
    by (split; [split|]; reflexivity).
  pose proof (waiters_resolve_independently 0 1 (state_is "on") (state_is "deleted")
                snapshot_on two_waiters SW0 SW1 eq_refl eq_refl) as H.
  cbv zeta in H. split; [exact (proj1 H) | exact (proj1 (proj2 H))].
Defined.

(** *** A fulfilled waiter is off the table, for good *)

Lemma remove_last_self p cb table :
  List.filter (waits_for p) table = [("change"%string, LWaiter p cb)] ->
  List.filter (waits_for p) (remove_last "change" (LWaiter p cb) table) = [].
Proof.
  induction table as [|e rest IH]; simpl; [done|].
  set (hit := fun x : string * listener =>
                String.eqb (fst x) "change" && same_listener (snd x) (LWaiter p cb)).
  assert (forall x, hit x = true -> waits_for p x = true) as Hhit.
  { intros [ev [|q c|o]]; unfold hit, waits_for; cbn [fst snd same_listener];
      rewrite ?andb_false_r; try done. by intros [_ H]%andb_true_iff. }
  assert (hit ("change"%string, LWaiter p cb) = true) as HE
    by (unfold hit; simpl; apply Nat.eqb_refl).
  destruct (existsb hit rest) eqn:Ex.
  - apply existsb_exists in Ex as (x & Hin & Hx).
    assert (In x (List.filter (waits_for p) rest)) as Hf
      by (apply filter_In; split; [done | by apply Hhit]).
    destruct (waits_for p e) eqn:We; intros H.
    + inversion H as [[He Hr]]. by rewrite Hr in Hf.
    + simpl. rewrite We. by apply IH.
  - destruct (waits_for p e) eqn:We; intros H.
    + inversion H as [[He Hr]]. subst e.
      change (_ && _) with (hit ("change"%string, LWaiter p cb)). by rewrite HE.
    + assert (In ("change"%string, LWaiter p cb) rest) as Hin.
      { assert (In ("change"%string, LWaiter p cb) (List.filter (waits_for p) rest)) as Hf
          by (rewrite H; by left).
        by apply filter_In in Hf as [Hf _]. }
      assert (existsb hit rest = true) as Ex'
        by (apply existsb_exists; by exists ("change"%string, LWaiter p cb)).
      congruence.
Qed.

Lemma existsb_same {A : Type} (f g : A -> bool) (l : list A) :
  (forall x, f x = g x) -> existsb f l = existsb g l.
Proof. intros H. induction l as [|x l IH]; simpl; [done|]. by rewrite H, IH. Qed.

(** removeListener tells the closures of _waitFor apart by their promise. *)
Lemma remove_last_callback ev p cb cb' table :
  remove_last ev (LWaiter p cb') table = remove_last ev (LWaiter p cb) table.
Proof.
  assert (forall x : string * listener,
             String.eqb (fst x) ev && same_listener (snd x) (LWaiter p cb')
             = String.eqb (fst x) ev && same_listener (snd x) (LWaiter p cb)) as H
    by (by intros [e [|q c|o]]).
  induction table as [|e rest IH]; simpl; [done|].
  rewrite (existsb_same _ _ rest H), H, IH. done.
Qed.

Lemma emit_change_unsubscribes p cb st :
  waiting p cb st -> satisfied cb (info st) = true ->
  fulfilled p (emit "change" st) /\
  List.filter (waits_for p) (listeners (emit "change" st)) = [].
Proof.
  intros W S. unfold emit.
  pose proof (waiting_registered _ _ _ W) as Hin.
  apply in_listeners_of in Hin. apply in_split in Hin as (l1 & l2 & ->).
  rewrite fold_left_app. simpl.
  set (gone := fun s : Instance =>
                 fulfilled p s /\ List.filter (waits_for p) (listeners s) = []).
  assert (forall s l, gone s -> gone (call_listener "change" l s)) as Hgone.
  { intros s l [F A]. split; [by apply call_listener_fulfilled|].
    destruct l as [|q c|o]; simpl; [by rewrite manageUpdates_listeners| |done].
    destruct (satisfied c (info s)) eqn:S'.
    - rewrite change_satisfied by done. rewrite resolve_listeners. simpl.
      by apply remove_last_absent.
    - by rewrite change_unsatisfied. }
  apply (fold_left_invariant gone); [|intros s l _; apply Hgone].
  set (s1 := fold_left _ l1 _).
  assert ((waiting p cb s1 \/ gone s1) /\ info s1 = info st) as [[W1|G1] Hi].
  { apply (fold_left_invariant (fun s => (waiting p cb s \/ gone s) /\ info s = info st)).
    - split; [left; by eapply waiting_ext; [| |exact W] | done].
    - intros s l _ [[Ws|Gs] Hs]; (split; [|by rewrite call_listener_info]).
      + destruct l as [|q cb'|o]; simpl.
        * left. eapply waiting_ext;
            [apply manageUpdates_promises|apply manageUpdates_listeners|done].
        * destruct (decide (q = p)) as [->|Hne].
          -- destruct (satisfied cb' (info s)) eqn:S'.
             ++ right. rewrite change_satisfied by done. split.
                ** apply resolve_pending. simpl. apply Ws.
                ** rewrite resolve_listeners. simpl.
                   destruct Ws as [_ Wl].
                   rewrite (remove_last_callback "change" p cb cb').
                   by apply remove_last_self.
             ++ left. by rewrite change_unsatisfied.
          -- left. by apply change_other.
        * left. by eapply waiting_ext; [| |exact Ws].
      + right. by apply Hgone. }
  - rewrite change_satisfied by (by rewrite Hi). split.
    + apply resolve_pending. simpl. apply W1.
    + rewrite resolve_listeners. simpl. apply remove_last_self, W1.
  - exact (Hgone s1 (LWaiter p cb) G1).
Qed.

Lemma step_fulfilled e p st st' :
  step e st = Some st' -> fulfilled p st -> fulfilled p st'.
Proof.
  intros Hstep F. destruct e; simpl in Hstep.
  - inversion Hstep; subst. by apply on_fulfilled.
  - by inversion Hstep; subst.
  - inversion Hstep; subst. by apply waitFor_fulfilled.
  - inversion Hstep; subst. by apply waitFor_fulfilled.
  - inversion Hstep; subst. by apply waitFor_fulfilled.
  - by inversion Hstep; subst.
  - inversion Hstep; subst. destruct (issue_frame c st) as (_ & Hp & _).
    unfold fulfilled. simpl. by rewrite Hp.
  - inversion Hstep; subst. unfold hypervisor_call.
    pose proof (waitFor_fulfilled vpn_ip_assigned p st F) as F'.
    by destruct (_waitFor vpn_ip_assigned st).
  - inversion Hstep; subst. unfold agent_call.
    pose proof (waitFor_fulfilled agent_present p st F) as F'.
    by destruct (_waitFor agent_present st).
  - destruct (first_queued (tasks st)) as [t|]; [|done].
    unfold poll_start in Hstep. destruct (tasks st !! t) as [[]|]; try done.
    by inversion Hstep; subst.
  - unfold reply, poll_reply in Hstep.
    destruct (tasks st !! t) as [[]|]; try done; destruct r as [fetched|];
      try (by inversion Hstep; subst);
      pose proof (update_fulfilled fetched p st F) as F';
      destruct (update fetched st) as [st1 [[]|]]; simpl in *;
      by inversion Hstep; subst.
  - unfold poll_wake in Hstep. destruct (tasks st !! t) as [[]|]; try done.
    destruct (negb _); by inversion Hstep; subst.
  - unfold resume in Hstep.
    destruct (tasks st !! t) as [[]|]; try done;
      destruct (promises st !! p0) as [[]|]; try done.
    + destruct (request_frame Hypervisor connects st) as (Hp & _). simpl in *.
      destruct (hypervisor connects st) as [st1 [r|]]; simpl in *;
        inversion Hstep; subst; unfold fulfilled; simpl; by rewrite Hp.
    + destruct (request_frame Agent connects st) as (Hp & _). simpl in *.
      destruct (agent connects st) as [st1 [r|]]; simpl in *;
        inversion Hstep; subst; unfold fulfilled; simpl; by rewrite Hp.
  - by inversion Hstep; subst.
Qed.

Lemma run_fulfilled es p :
  forall st st', run es st = Some st' -> fulfilled p st -> fulfilled p st'.
Proof.
  induction es as [|e es IH]; intros st st' Hrun F; simpl in Hrun.
  - by inversion Hrun; subst.
  - destruct (step e st) as [st1|] eqn:Hstep; [|done].
    eapply IH; [exact Hrun|]. by eapply step_fulfilled.
Qed.

Lemma call_listener_filter_le (f : string * listener -> bool) ev l st :
  length (List.filter f (listeners (call_listener ev l st)))
  <= length (List.filter f (listeners st)).
Proof.
  destruct l as [|q cb|o]; simpl; [by rewrite manageUpdates_listeners| |done].
  destruct (satisfied cb (info st)) eqn:S.
  - rewrite change_satisfied by done. rewrite resolve_listeners. simpl.
    apply remove_last_filter_le.
  - by rewrite change_unsatisfied.
Qed.

Lemma emit_filter_le (f : string * listener -> bool) ev st :
  length (List.filter f (listeners (emit ev st))) <= length (List.filter f (listeners st)).
Proof.
  unfold emit.
  apply (fold_left_invariant
           (fun s => length (List.filter f (listeners s))
                     <= length (List.filter f (listeners st)))); [done|].
  intros s l _ H. pose proof (call_listener_filter_le f ev l s). lia.
Qed.

Lemma update_filter_le (f : string * listener -> bool) fetched st :
  length (List.filter f (listeners (fst (update fetched st))))
  <= length (List.filter f (listeners st)).
Proof.
  destruct (differs fetched (info st)) eqn:D.
  - rewrite update_changed by done. cbv zeta.
    pose proof (emit_filter_le f "change" (set_info fetched st)) as H1.
    pose proof (emit_filter_le f "panic" (emit "change" (set_info fetched st))) as H2.
    change (listeners (set_info fetched st)) with (listeners st) in H1.
    destruct (get _ _) as [v|]; [destruct (truthy v)|]; cbn [fst]; lia.
  - by rewrite update_unchanged.
Qed.

Lemma filter_split_length {A : Type} (g h : A -> bool) (l : list A) :
  length (List.filter g l)
  = length (List.filter g (List.filter h l))
    + length (List.filter (fun x => g x && negb (h x)) l).
Proof.
  induction l as [|x l IH]; simpl; [done|].
  destruct (h x); simpl; destruct (g x); simpl; lia.
Qed.

Lemma update_unsubscribes fetched p cb st :
  waiting p cb st -> satisfied cb (info st) = false -> satisfied cb fetched = true ->
  List.filter (waits_for p) (listeners (fst (update fetched st))) = [].
Proof.
  intros W S0 S1.
  assert (differs fetched (info st) = true) as D.
  { apply differs_spec. intros E. rewrite E in S1. congruence. }
  rewrite update_changed by done. cbv zeta.
  destruct (emit_change_unsubscribes p cb (set_info fetched st)) as [_ A];
    [by eapply waiting_ext; [| |exact W] | done |].
  destruct (get _ _) as [v|]; [destruct (truthy v)|]; simpl; try done.
  pose proof (emit_filter_le (waits_for p) "panic" (emit "change" (set_info fetched st))) as L.
  rewrite A in L. simpl in L.
  apply length_zero_iff_nil. lia.
Qed.

(** X5.  The refresh that fulfils a waiter also takes its listener off
    the emitter: no closure of that promise is left, the number of 'change'
    listeners has dropped, and the promise stays fulfilled through
    whatever happens next. *)
Theorem fulfilled_waiter_unsubscribes
    (p : nat) (cb : json -> completion jsval) (fetched : json) (st : Instance) :
  still_waiting p cb st -> satisfied cb fetched = true ->
  let st' := fst (update fetched st) in
  promises st' !! p = Some Fulfilled /\
  List.filter (waits_for p) (listeners st') = [] /\
  listenerCount "change" st' < listenerCount "change" st /\
  (forall es st'', run es st' = Some st'' -> promises st'' !! p = Some Fulfilled).
Proof.
  intros [W S] Sf st'.
  pose proof (update_fulfils fetched p cb st W S Sf) as F.
  pose proof (update_unsubscribes fetched p cb st W S Sf) as A.
  split; [exact F|]. split; [exact A|]. split.
  - unfold listenerCount, listeners_of. rewrite !length_map.
    set (g := fun el : string * listener => String.eqb (fst el) "change").
    rewrite (filter_split_length g (waits_for p) (listeners st')).
    rewrite (filter_split_length g (waits_for p) (listeners st)).
    subst st'. rewrite A. destruct W as [_ ->]. simpl.
    pose proof (update_filter_le (fun x => g x && negb (waits_for p x)) fetched st). lia.
  - intros es st'' Hrun. by apply (run_fulfilled es p st' st'').
Qed.

Lemma fulfilled_waiter_unsubscribes_witness :
  listenerCount "change" (fst (update snapshot_on two_waiters))
  < listenerCount "change" two_waiters.
Proof.
  assert (still_waiting 0 (state_is "on") two_waiters) as SW0
    by (split; [split|]; reflexivity).
  exact (proj1 (proj2 (proj2 (fulfilled_waiter_unsubscribes 0 (state_is "on")
                                snapshot_on two_waiters SW0 eq_refl)))).
Defined.

Lemma remove_last_appended ev l table :
  remove_last ev l (table ++ [(ev, l)]) = table.
Proof.
  assert (String.eqb (fst (ev, l)) ev && same_listener (snd (ev, l)) l = true) as Hit.
  { simpl. rewrite String.eqb_refl. destruct l; simpl; by rewrite ?Nat.eqb_refl. }
  induction table as [|e rest IH]; simpl.
  - simpl in Hit. by rewrite Hit.
  - rewrite existsb_app. simpl. simpl in Hit. rewrite Hit.
    rewrite ?orb_true_r, ?orb_true_l. simpl. by rewrite IH.
Qed.

(** X6.  A _waitFor whose callback already holds is fulfilled at the call
    and leaves the emitter's table exactly as it found it: the listener it
    adds is the one it removes. *)
Theorem satisfied_waitFor_leaves_no_listener
    (cb : json -> completion jsval) (st : Instance) :
  listeners_of "newListener" st = [LManageUpdates] ->
  satisfied cb (info st) = true ->
  promises (fst (_waitFor cb st)) !! snd (_waitFor cb st) = Some Fulfilled /\
  listeners (fst (_waitFor cb st)) = listeners st /\
  listenerCount "change" (fst (_waitFor cb st)) = listenerCount "change" st.
Proof.
  intros Hook S.
  assert (listeners (fst (_waitFor cb st)) = listeners st /\
          promises (fst (_waitFor cb st)) !! snd (_waitFor cb st) = Some Fulfilled)
    as [Hl Hp].
  { unfold _waitFor. simpl. rewrite on_hooked by exact Hook. cbv zeta.
    set (p := length (promises st)).
    rewrite change_satisfied.
    - rewrite resolve_listeners. simpl. rewrite manageUpdates_listeners. simpl.
      split; [apply remove_last_appended|].
      apply resolve_pending. simpl. rewrite manageUpdates_promises. simpl.
      subst p. rewrite lookup_app_r by lia. by rewrite Nat.sub_diag.
    - simpl. unfold manageUpdates. simpl. by destruct (updating st). }
  split; [done|]. split; [done|].
  unfold listenerCount, listeners_of. by rewrite Hl.
Qed.

Lemma satisfied_waitFor_leaves_no_listener_witness :
  listeners (fst (_waitFor (state_is "off") off_handle)) = listeners off_handle.
Proof.
  exact (proj1 (proj2 (satisfied_waitFor_leaves_no_listener (state_is "off") off_handle
                         eq_refl eq_refl))).
Defined.

(** *** Counting the polling loops *)

Lemma polling_count_app (l1 l2 : list task) :
  length (List.filter polling (l1 ++ l2))
  = length (List.filter polling l1) + length (List.filter polling l2).
Proof. by rewrite List.filter_app, length_app. Qed.

Lemma polling_count_insert (l : list task) (t : nat) (x y : task) :
  l !! t = Some x ->
  length (List.filter polling (<[t := y]> l)) + (if polling x then 1 else 0)
  = length (List.filter polling l) + (if polling y then 1 else 0).
Proof.
  revert t. induction l as [|z l IH]; intros t H; [done|].
  destruct t as [|t]; simpl in *.
  - inversion H; subst. destruct (polling x), (polling y); simpl; lia.
  - specialize (IH t H). destruct (polling z); simpl; lia.
Qed.

Lemma polling_count_pos (l : list task) (t : nat) (x : task) :
  l !! t = Some x -> polling x = true -> 0 < length (List.filter polling l).
Proof.
  revert t. induction l as [|z l IH]; intros t H Hx; [done|].
  destruct t as [|t]; simpl in *.
  - inversion H; subst. rewrite Hx. simpl. lia.
  - specialize (IH t H Hx). destruct (polling z); simpl; lia.
Qed.

Lemma first_queued_None_app (l1 l2 : list task) :
  first_queued l1 = None -> first_queued (l1 ++ l2) = (fun n => length l1 + n) <$> first_queued l2.
Proof.
  induction l1 as [|x l1 IH]; simpl.
  - intros _. by destruct (first_queued l2).
  - destruct x; try done; destruct (first_queued l1) eqn:E; try done;
      intros _; rewrite IH by done; by destruct (first_queued l2).
Qed.

Lemma first_queued_None_insert (l : list task) (t : nat) (y : task) :
  first_queued l = None -> y <> Queued -> first_queued (<[t := y]> l) = None.
Proof.
  revert t. induction l as [|x l IH]; intros t H Hy; [done|].
  destruct t as [|t]; simpl in *.
  - destruct x; try done; destruct (first_queued l); try done; by destruct y.
  - destruct x; try done; destruct (first_queued l) eqn:E; try done;
      by rewrite IH.
Qed.

Lemma first_queued_None_count (l : list task) :
  length (List.filter polling l) = 0 -> first_queued l = None.
Proof.
  induction l as [|x l IH]; [done|]. simpl.
  destruct x; simpl; try done; intros H; by rewrite IH.
Qed.


(** *** manageUpdates under emit *)

Lemma emit_tasks_fold ev (L : list listener) :
  forall s,
    let s' := fold_left (fun s l => call_listener ev l s) L s in
    updating s' = updating s /\
    tasks s' = tasks s ++ (if updating s then []
                           else repeat Queued (length (List.filter is_manageUpdates L))).
Proof.
  induction L as [|l L IH]; intros s; simpl.
  - split; [done|]. destruct (updating s); by rewrite app_nil_r.
  - specialize (IH (call_listener ev l s)). cbv zeta in IH. destruct IH as [IHu IHt].
    rewrite IHu, IHt, call_listener_updating. split; [done|].
    destruct l as [|q cb|o]; simpl.
    + unfold manageUpdates. destruct (updating s) eqn:U; [done|].
      simpl. by rewrite <- app_assoc.
    + by rewrite change_tasks.
    + done.
Qed.

Lemma emit_tasks ev st :
  tasks (emit ev st)
  = tasks st ++ (if updating st then []
                 else repeat Queued (length (List.filter is_manageUpdates (listeners_of ev st)))).
Proof.
  unfold emit. destruct (emit_tasks_fold ev (listeners_of ev st) (log (Emitted ev) st)) as [_ H].
  exact H.
Qed.

Lemma emit_nobody ev st : listeners_of ev st = [] -> emit ev st = log (Emitted ev) st.
Proof. unfold emit. by intros ->. Qed.


Lemma waitFor_tasks cb st :
  tasks (fst (_waitFor cb st))
  = tasks st ++ (if updating st then []
                 else repeat Queued
                        (length (List.filter is_manageUpdates (listeners_of "newListener" st)))).
Proof.
  unfold _waitFor. simpl. rewrite change_tasks. unfold on. simpl.
  change (listeners_of "newListener" (set_promises (promises st ++ [Pending]) st))
    with (listeners_of "newListener" st).
  destruct (listeners_of "newListener" st) eqn:E.
  - simpl. destruct (updating st); by rewrite app_nil_r.
  - rewrite emit_tasks. simpl.
    change (listeners_of "newListener" (set_promises (promises st ++ [Pending]) st))
      with (listeners_of "newListener" st).
    by rewrite E.
Qed.

Lemma on_tasks ev l st :
  tasks (on ev l st)
  = tasks st ++ (if updating st then []
                 else repeat Queued
                        (length (List.filter is_manageUpdates (listeners_of "newListener" st)))).
Proof.
  unfold on. simpl. destruct (listeners_of "newListener" st) eqn:E.
  - simpl. destruct (updating st); by rewrite app_nil_r.
  - rewrite emit_tasks. by rewrite E.
Qed.

Lemma on_updating ev l st : updating (on ev l st) = updating st.
Proof.
  unfold on. simpl. destruct (listeners_of "newListener" st); [done|]. apply emit_updating.
Qed.

Lemma waitFor_updating cb st : updating (fst (_waitFor cb st)) = updating st.
Proof. unfold _waitFor. simpl. by rewrite change_updating, on_updating. Qed.

Lemma request_requests k c st :
  requests (trace (fst (request k c st))) = requests (trace st).
Proof.
  destruct k, c; simpl; unfold hypervisor, agent, construct.
  1,2: destruct (hypervisor_endpoint st); [|done];
    (destruct (hypervisorStream st) as [r|]; [|simpl; count_effects]);
    (destruct (stream_active r st); [|simpl; count_effects]);
    (destruct (String.eqb _ _); [done|]); simpl; rewrite <- ?app_assoc; count_effects.
  all: destruct (agent_endpoint st); [|done];
    (destruct (agentStream st) as [r|]; [|simpl; count_effects]);
    (destruct (stream_active r st); [|simpl; count_effects]);
    (destruct (String.eqb _ _); [done|]); simpl; rewrite <- ?app_assoc; count_effects.
Qed.

Lemma issue_requests c st : requests (trace (issue c st)) = S (requests (trace st)).
Proof. destruct c; simpl; count_effects. Qed.

(** *** An idle handle *)

Lemma update_idle fetched st :
  idle st ->
  idle (fst (update fetched st)) /\
  requests (trace (fst (update fetched st))) = requests (trace st).
Proof.
  intros (Hl & Hu & Hp). split; [|apply update_requests].
  destruct (differs fetched (info st)) eqn:D; [|by rewrite update_unchanged].
  rewrite update_changed by done. cbv zeta.
  assert (emit "change" (set_info fetched st) = log (Emitted "change") (set_info fetched st))
    as -> by (apply emit_nobody; unfold listeners_of; simpl; by rewrite Hl).
  assert (emit "panic" (log (Emitted "change") (set_info fetched st))
          = log (Emitted "panic") (log (Emitted "change") (set_info fetched st)))
    as -> by (apply emit_nobody; unfold listeners_of; simpl; by rewrite Hl).
  by destruct (get _ _) as [v|]; [destruct (truthy v)|].
Qed.

Lemma idle_not_polling st t x : idle st -> tasks st !! t = Some x -> polling x = false.
Proof.
  intros (_ & _ & Hp) Ht. destruct (polling x) eqn:Px; [|done].
  pose proof (polling_count_pos (tasks st) t x Ht Px) as H.
  unfold polling_tasks in Hp. lia.
Qed.

Lemma set_task_idle st t x y :
  idle st -> tasks st !! t = Some x -> polling y = false -> idle (set_task t y st).
Proof.
  intros I Ht Py. pose proof (idle_not_polling st t x I Ht) as Px.
  destruct I as (Hl & Hu & Hp). split; [done|]. split; [done|].
  unfold polling_tasks in *. simpl.
  pose proof (polling_count_insert (tasks st) t x y Ht) as H.
  rewrite Px, Py in H. lia.
Qed.

Lemma step_idle e st st' :
  idle st -> registers e = false -> step e st = Some st' ->
  idle st' /\
  requests (trace st') = requests (trace st) + (if calls_remote e then 1 else 0).
Proof.
  intros I He Hstep. destruct e; try discriminate He; simpl in Hstep; simpl.
  - (* removeListener *)
    inversion Hstep; subst. split; [|simpl; lia].
    destruct I as (Hl & Hu & Hp). split; [|done].
    simpl. rewrite Hl. simpl. by rewrite andb_false_r.
  - (* update() called *)
    inversion Hstep; subst. split; [|simpl; count_effects].
    destruct I as (Hl & Hu & Hp). split; [done|]. split; [done|].
    unfold polling_tasks in *. simpl. rewrite polling_count_app. simpl. lia.
  - (* a command *)
    inversion Hstep; subst.
    destruct (issue_frame c st) as (_ & _ & Hl' & Ht' & Hu' & _).
    split; [|simpl; rewrite issue_requests; lia].
    destruct I as (Hl & Hu & Hp). split; [by rewrite <- Hl|]. split; [by rewrite <- Hu|].
    unfold polling_tasks in *. simpl. rewrite Ht', polling_count_app. simpl. lia.
  - (* tick: nothing is queued *)
    destruct (first_queued (tasks st)) as [t|] eqn:Q; [|done].
    apply first_queued_lookup in Q.
    by pose proof (idle_not_polling st t Queued I Q).
  - (* reply *)
    unfold reply, poll_reply in Hstep.
    destruct (tasks st !! t) as [x|] eqn:Ht; [|done].
    pose proof (idle_not_polling st t x I Ht) as Px.
    destruct x; try done; destruct r as [fetched|];
      try (inversion Hstep; subst; split; [by eapply set_task_idle | simpl; lia]).
    destruct (update_idle fetched st I) as [I1 R1].
    pose proof (update_task fetched st t Refreshing Ht) as Ht1.
    destruct (update fetched st) as [st1 [[]|]]; simpl in *;
      inversion Hstep; subst; (split; [by eapply set_task_idle | simpl; lia]).
  - (* timer *)
    unfold poll_wake in Hstep.
    destruct (tasks st !! t) as [x|] eqn:Ht; [|done].
    pose proof (idle_not_polling st t x I Ht) as Px. by destruct x.
  - (* resume *)
    unfold resume in Hstep.
    destruct (tasks st !! t) as [x|] eqn:Ht; [|done].
    destruct x; try done; destruct (promises st !! p) as [[]|]; try done.
    + destruct (request_frame Hypervisor connects st) as (_ & Hl' & _ & Ht' & Hu').
      pose proof (request_requests Hypervisor connects st) as R. simpl in *.
      assert (idle (fst (hypervisor connects st))) as I1.
      { destruct I as (Hl & Hu & Hp). unfold idle, polling_tasks in *.
        by rewrite Hl', Hu', Ht'. }
      rewrite <- Ht' in Ht.
      destruct (hypervisor connects st) as [st1 [r|]]; simpl in *; inversion Hstep; subst.
      * split; [by eapply (set_task_idle st1) | simpl; by rewrite requests_app, R].
      * split; [by eapply (set_task_idle st1) | simpl; lia].
    + destruct (request_frame Agent connects st) as (_ & Hl' & _ & Ht' & Hu').
      pose proof (request_requests Agent connects st) as R. simpl in *.
      assert (idle (fst (agent connects st))) as I1.
      { destruct I as (Hl & Hu & Hp). unfold idle, polling_tasks in *.
        by rewrite Hl', Hu', Ht'. }
      rewrite <- Ht' in Ht.
      destruct (agent connects st) as [st1 [r|]]; simpl in *; inversion Hstep; subst.
      * split; [by eapply (set_task_idle st1) | simpl; by rewrite requests_app, R].
      * split; [by eapply (set_task_idle st1) | simpl; lia].
  - inversion Hstep; subst. split; [done | simpl; lia].
Qed.

(** X7.  A handle polls only for someone who listens.  From the
    constructor on, through any run of events in which nobody registers a
    listener (or waits for a condition), no polling loop is ever scheduled,
    the flag stays clear, and the handle has made exactly one request for
    each update() or command called on it and none of its own. *)
Theorem idle_until_registration
    (api : string) (i : json) (st st' : Instance) (es : list event) :
  new_Instance api i = Normal st ->
  run es st = Some st' ->
  Forall (fun e => registers e = false) es ->
  polling_tasks st' = 0 /\
  updating st' = false /\
  requests (trace st') = length (List.filter calls_remote es).
Proof.
  intros Hnew Hrun Hes.
  assert (idle st /\ requests (trace st) = 0) as [I R0].
  { unfold new_Instance, bind in Hnew. destruct (get (VJson i) "id"); [|done].
    by inversion Hnew; subst. }
  assert (idle st' /\
          requests (trace st') = requests (trace st) + length (List.filter calls_remote es))
    as [I' R'].
  { clear Hnew R0. revert st I Hrun.
    induction Hes as [|e es He Hes IH]; intros st I Hrun; simpl in Hrun.
    - inversion Hrun; subst. split; [done | simpl; lia].
    - destruct (step e st) as [st1|] eqn:Hstep; [|done].
      destruct (step_idle e st st1 I He Hstep) as [I1 R1].
      destruct (IH st1 I1 Hrun) as [I' R']. split; [done|].
      simpl. destruct (calls_remote e); simpl; lia. }
  destruct I' as (_ & Hu & Hp). split; [done|]. split; [done|]. lia.
Qed.

Lemma idle_until_registration_witness :
  polling_tasks (after [CallCommand CStart; CallUpdate; Reply 1 (Some snapshot_on)] off_handle)
  = 0.
Proof.
  refine (proj1 (idle_until_registration "https://host/api" snapshot_off off_handle _
                   [CallCommand CStart; CallUpdate; Reply 1 (Some snapshot_on)]
                   eq_refl _ _)).
  - vm_compute. reflexivity.
  - repeat constructor.
Defined.

(** *** One cycle of a loop that nobody keeps alive *)




(** *** A handle whose polling has died *)












(** *** A loop that somebody keeps alive *)









(** *** The hook is registered once, and stays so *)

Lemma remove_last_hooks ev l table :
  is_manageUpdates l = false ->
  List.filter is_hook (remove_last ev l table) = List.filter is_hook table.
Proof.
  intros Hl. induction table as [|e rest IH]; simpl; [done|].
  destruct (existsb _ rest).
  - simpl. by rewrite IH.
  - destruct (String.eqb (fst e) ev && same_listener (snd e) l) eqn:Hit; [|done].
    apply andb_true_iff in Hit as [_ Hs].
    replace (is_hook e) with false; [done|].
    unfold is_hook. destruct e as [ev' [|q cb|o]]; simpl in *; try done.
    by destruct l.
Qed.

Lemma call_listener_hooks ev l st :
  List.filter is_hook (listeners (call_listener ev l st)) = List.filter is_hook (listeners st).
Proof.
  destruct l as [|q cb|o]; simpl; [by rewrite manageUpdates_listeners| |done].
  destruct (satisfied cb (info st)) eqn:S.
  - rewrite change_satisfied by done. rewrite resolve_listeners. simpl.
    by apply remove_last_hooks.
  - by rewrite change_unsatisfied.
Qed.

Lemma emit_hooks ev st :
  List.filter is_hook (listeners (emit ev st)) = List.filter is_hook (listeners st).
Proof.
  unfold emit.
  apply (fold_left_invariant
           (fun s => List.filter is_hook (listeners s) = List.filter is_hook (listeners st)));
    [done|].
  intros s l _ <-. apply call_listener_hooks.
Qed.

Lemma on_hooks ev l st :
  is_manageUpdates l = false ->
  List.filter is_hook (listeners (on ev l st)) = List.filter is_hook (listeners st).
Proof.
  intros Hl. unfold on. simpl. rewrite List.filter_app. simpl.
  replace (is_hook (ev, l)) with false by (by destruct l).
  rewrite app_nil_r. destruct (listeners_of "newListener" st); [done|]. apply emit_hooks.
Qed.

Lemma waitFor_hooks cb st :
  List.filter is_hook (listeners (fst (_waitFor cb st))) = List.filter is_hook (listeners st).
Proof.
  unfold _waitFor. simpl.
  change (change _ cb ?s) with (call_listener "change" (LWaiter (length (promises st)) cb) s).
  rewrite call_listener_hooks, on_hooks by done. done.
Qed.

Lemma update_hooks fetched st :
  List.filter is_hook (listeners (fst (update fetched st))) = List.filter is_hook (listeners st).
Proof.
  destruct (differs fetched (info st)) eqn:D.
  - rewrite update_changed by done. cbv zeta.
    destruct (get _ _) as [v|]; [destruct (truthy v)|]; simpl; by rewrite !emit_hooks.
  - by rewrite update_unchanged.
Qed.

Lemma hooks_of (table : list (string * listener)) (ev : string) :
  length (List.filter is_manageUpdates
            (map snd (List.filter (fun el => String.eqb (fst el) ev) table)))
  = length (List.filter (fun el => String.eqb (fst el) ev) (List.filter is_hook table)).
Proof.
  induction table as [|[ev' l] rest IH]; simpl; [done|].
  unfold is_hook at 1. simpl.
  destruct (String.eqb ev' ev) eqn:E; destruct l; simpl; rewrite ?E; simpl; lia.
Qed.

Lemma hooked_once_count st ev :
  hooked_once st ->
  length (List.filter is_manageUpdates (listeners_of ev st))
  = if String.eqb "newListener" ev then 1 else 0.
Proof.
  intros H. unfold listeners_of. rewrite hooks_of, H. cbn [List.filter fst].
  by destruct (String.eqb "newListener" ev).
Qed.

Lemma update_tasks_hooked fetched st :
  hooked_once st -> tasks (fst (update fetched st)) = tasks st.
Proof.
  intros H. destruct (differs fetched (info st)) eqn:D.
  - rewrite update_changed by done. cbv zeta.
    assert (hooked_once (set_info fetched st)) as H0 by done.
    assert (hooked_once (emit "change" (set_info fetched st))) as H1
      by (unfold hooked_once; by rewrite emit_hooks).
    assert (tasks (emit "change" (set_info fetched st)) = tasks st) as T1.
    { rewrite emit_tasks, (hooked_once_count _ "change" H0). simpl.
      destruct (updating st); by rewrite app_nil_r. }
    assert (tasks (emit "panic" (emit "change" (set_info fetched st))) = tasks st) as T2.
    { rewrite emit_tasks, (hooked_once_count _ "panic" H1). simpl. rewrite T1.
      destruct (updating _); by rewrite app_nil_r. }
    by destruct (get _ _) as [v|]; [destruct (truthy v)|].
  - by rewrite update_unchanged.
Qed.

Lemma on_tasks_hooked ev l st :
  hooked_once st ->
  tasks (on ev l st) = tasks st ++ (if updating st then [] else [Queued]).
Proof. intros H. by rewrite on_tasks, (hooked_once_count _ "newListener" H). Qed.

Lemma waitFor_tasks_hooked cb st :
  hooked_once st ->
  tasks (fst (_waitFor cb st)) = tasks st ++ (if updating st then [] else [Queued]).
Proof. intros H. by rewrite waitFor_tasks, (hooked_once_count _ "newListener" H). Qed.

(** *** One polling loop at a time *)

Lemma single_loop_same st st1 :
  tasks st1 = tasks st -> updating st1 = updating st -> single_loop st ->
  single_loop st1 /\ settle st1 = Some st1.
Proof.
  unfold single_loop, settle, polling_tasks. intros -> -> (Hq & Hc & Hu).
  by rewrite Hq.
Qed.

Lemma insert_middle (l extra : list task) (x y : task) :
  <[length l := y]> (l ++ x :: extra) = l ++ y :: extra.
Proof. induction l as [|z l IH]; simpl; [done | by rewrite IH]. Qed.

Lemma registration_settles st st1 extra :
  single_loop st ->
  length (List.filter polling extra) = 0 ->
  tasks st1 = tasks st ++ (if updating st then [] else [Queued]) ++ extra ->
  updating st1 = updating st ->
  exists st', settle st1 = Some st' /\ single_loop st' /\ listeners st' = listeners st1.
Proof.
  intros (Hq & Hc & Hu) Hx Ht U. unfold settle.
  pose proof (first_queued_None_count extra Hx) as Qx.
  destruct (updating st) eqn:Ust.
  - simpl in Ht. exists st1.
    rewrite Ht, first_queued_None_app, Qx by done. simpl. split; [done|].
    split; [|done]. unfold single_loop, polling_tasks in *.
    rewrite Ht, first_queued_None_app, Qx, polling_count_app, Hx by done. simpl.
    split; [done|]. split; [lia|]. intros _. by rewrite U.
  - assert (length (List.filter polling (tasks st)) = 0) as C0.
    { unfold polling_tasks in *.
      destruct (length (List.filter polling (tasks st))) as [|[|n]]; [done| |lia].
      by specialize (Hu eq_refl). }
    simpl in Ht. rewrite Ht, first_queued_None_app by done. simpl.
    rewrite Nat.add_0_r. unfold poll_start. rewrite Ht.
    rewrite lookup_app_r by lia. rewrite Nat.sub_diag. simpl.
    eexists. split; [reflexivity|]. split; [|done].
    unfold single_loop, polling_tasks. simpl. rewrite Ht, insert_middle.
    rewrite first_queued_None_app by done. simpl. rewrite Qx. simpl.
    rewrite polling_count_app. simpl. rewrite C0, Hx. split; [done|]. split; [lia|done].
Qed.

Lemma single_loop_spawn st x :
  polling x = false -> single_loop st ->
  single_loop (spawn x st) /\ settle (spawn x st) = Some (spawn x st).
Proof.
  intros Px (Hq & Hc & Hu).
  assert (first_queued (tasks st ++ [x]) = None) as Q.
  { rewrite first_queued_None_app by done. simpl. by destruct x. }
  unfold single_loop, settle, polling_tasks in *. simpl. rewrite Q.
  rewrite polling_count_app. simpl. rewrite Px. simpl.
  split; [|done]. split; [done|]. split; [lia|]. intros H. apply Hu. lia.
Qed.

Lemma single_loop_set_task st t x y :
  tasks st !! t = Some x -> y <> Queued -> (polling y = true -> polling x = true) ->
  single_loop st ->
  single_loop (set_task t y st) /\ settle (set_task t y st) = Some (set_task t y st).
Proof.
  intros Ht Hy Hxy (Hq & Hc & Hu).
  pose proof (first_queued_None_insert (tasks st) t y Hq Hy) as Q.
  pose proof (polling_count_insert (tasks st) t x y Ht) as C.
  unfold single_loop, settle, polling_tasks in *. simpl. rewrite Q.
  split; [|done]. split; [done|].
  destruct (polling y) eqn:Py.
  - rewrite Hxy in C by done. split; [lia|]. intros H. apply Hu. lia.
  - destruct (polling x); split; try lia; intros H; apply Hu; lia.
Qed.

Lemma single_loop_finish st t :
  tasks st !! t = Some Sleeping -> single_loop st ->
  single_loop (set_task t Finished (set_updating false st)) /\
  settle (set_task t Finished (set_updating false st))
  = Some (set_task t Finished (set_updating false st)).
Proof.
  intros Ht (Hq & Hc & Hu).
  pose proof (first_queued_None_insert (tasks st) t Finished Hq) as Q.
  pose proof (polling_count_insert (tasks st) t Sleeping Finished Ht) as C.
  unfold single_loop, settle, polling_tasks in *. simpl in *. rewrite Q by done.
  split; [|done]. split; [done|]. split; lia.
Qed.

Lemma turn_single_loop e st st' :
  single_loop st -> hooked_once st -> turn e st = Some st' ->
  single_loop st' /\ hooked_once st'.
Proof.
  intros SL H Hturn. unfold turn in Hturn.
  destruct (step e st) as [st1|] eqn:Hstep; [|done].
  destruct e; cbn [step] in Hstep.
  - (* on *)
    injection Hstep as <-.
    destruct (registration_settles st (on ev (LObserver o) st) [] SL eq_refl)
      as (s & Hs & SLs & Ls).
    { rewrite app_nil_r. by apply on_tasks_hooked. }
    { apply on_updating. }
    rewrite Hs in Hturn. injection Hturn as <-. split; [done|].
    unfold hooked_once. rewrite Ls, on_hooks by done. exact H.
  - (* removeListener *)
    injection Hstep as <-.
    destruct (single_loop_same st (removeListener ev (LObserver o) st) eq_refl eq_refl SL)
      as [SL1 S1].
    rewrite S1 in Hturn. injection Hturn as <-. split; [done|].
    unfold hooked_once. simpl. rewrite remove_last_hooks by done. exact H.
  - (* _waitFor *)
    assert (st1 = fst (_waitFor callback st)) as -> by (by injection Hstep as <-).
    destruct (registration_settles st (fst (_waitFor callback st)) [] SL eq_refl)
      as (s & Hs & SLs & Ls).
    { rewrite app_nil_r. by apply waitFor_tasks_hooked. }
    { apply waitFor_updating. }
    rewrite Hs in Hturn. injection Hturn as <-. split; [done|].
    unfold hooked_once. rewrite Ls, waitFor_hooks. exact H.
  - (* waitForState *)
    assert (st1 = fst (_waitFor (state_is target) st)) as -> by (by injection Hstep as <-).
    destruct (registration_settles st (fst (_waitFor (state_is target) st)) [] SL eq_refl)
      as (s & Hs & SLs & Ls).
    { rewrite app_nil_r. by apply waitFor_tasks_hooked. }
    { apply waitFor_updating. }
    rewrite Hs in Hturn. injection Hturn as <-. split; [done|].
    unfold hooked_once. rewrite Ls, waitFor_hooks. exact H.
  - (* finishRestore *)
    assert (st1 = fst (_waitFor not_creating st)) as -> by (by injection Hstep as <-).
    destruct (registration_settles st (fst (_waitFor not_creating st)) [] SL eq_refl)
      as (s & Hs & SLs & Ls).
    { rewrite app_nil_r. by apply waitFor_tasks_hooked. }
    { apply waitFor_updating. }
    rewrite Hs in Hturn. injection Hturn as <-. split; [done|].
    unfold hooked_once. rewrite Ls, waitFor_hooks. exact H.
  - (* update() *)
    injection Hstep as <-.
    destruct (single_loop_spawn (update_call st) Refreshing eq_refl) as [SL1 S1]; [done|].
    rewrite S1 in Hturn. by injection Hturn as <-.
  - (* a command *)
    injection Hstep as <-.
    destruct (issue_frame c st) as (_ & _ & Hl' & Ht' & Hu' & _).
    destruct (single_loop_same st (issue c st) Ht' Hu' SL) as [SL0 _].
    destruct (single_loop_spawn (issue c st) Commanding eq_refl SL0) as [SL1 S1].
    rewrite S1 in Hturn. injection Hturn as <-. split; [done|].
    unfold hooked_once. simpl. by rewrite Hl'.
  - (* hypervisor() *)
    injection Hstep as <-. unfold hypervisor_call in *.
    pose proof (waitFor_tasks_hooked vpn_ip_assigned st H) as T.
    pose proof (waitFor_updating vpn_ip_assigned st) as U.
    pose proof (waitFor_hooks vpn_ip_assigned st) as L.
    destruct (_waitFor vpn_ip_assigned st) as [s1 q]. simpl in T, U, L.
    destruct (registration_settles st (spawn (AwaitHypervisor q) s1)
                [AwaitHypervisor q] SL eq_refl) as (s & Hs & SLs & Ls).
    { simpl. rewrite T. by rewrite <- app_assoc. }
    { done. }
    rewrite Hs in Hturn. injection Hturn as <-. split; [done|].
    unfold hooked_once. rewrite Ls. simpl. rewrite L. exact H.
  - (* agent() *)
    injection Hstep as <-. unfold agent_call in *.
    pose proof (waitFor_tasks_hooked agent_present st H) as T.
    pose proof (waitFor_updating agent_present st) as U.
    pose proof (waitFor_hooks agent_present st) as L.
    destruct (_waitFor agent_present st) as [s1 q]. simpl in T, U, L.
    destruct (registration_settles st (spawn (AwaitAgent q) s1)
                [AwaitAgent q] SL eq_refl) as (s & Hs & SLs & Ls).
    { simpl. rewrite T. by rewrite <- app_assoc. }
    { done. }
    rewrite Hs in Hturn. injection Hturn as <-. split; [done|].
    unfold hooked_once. rewrite Ls. simpl. rewrite L. exact H.
  - (* tick: nothing is queued between turns *)
    destruct SL as (Hq & _). by rewrite Hq in Hstep.
  - (* reply *)
    unfold reply, poll_reply in Hstep.
    destruct (tasks st !! t) as [x|] eqn:Ht; [|done].
    assert (forall y s1,
               y <> Queued -> (polling y = true -> polling x = true) ->
               tasks s1 = tasks st -> updating s1 = updating st ->
               List.filter is_hook (listeners s1) = List.filter is_hook (listeners st) ->
               st1 = set_task t y s1 ->
               single_loop st' /\ hooked_once st') as Finish.
    { intros y s1 Hy Hxy T1 U1 L1 ->.
      destruct (single_loop_same st s1 T1 U1 SL) as [SL1 _].
      rewrite <- T1 in Ht.
      destruct (single_loop_set_task s1 t x y Ht Hy Hxy SL1) as [SL2 S2].
      rewrite S2 in Hturn. injection Hturn as <-. split; [done|].
      unfold hooked_once. simpl. by rewrite L1. }
    destruct x; try done; destruct r as [fetched|];
      try (injection Hstep as <-; by eapply (Finish _ st); try reflexivity);
      pose proof (update_tasks_hooked fetched st H) as T1;
      pose proof (update_updating fetched st) as U1;
      pose proof (update_hooks fetched st) as L1;
      destruct (update fetched st) as [s1 [[]|]]; simpl in T1, U1, L1;
      injection Hstep as <-; by eapply (Finish _ s1); try reflexivity.
  - (* timer *)
    unfold poll_wake in Hstep.
    destruct (tasks st !! t) as [x|] eqn:Ht; [|done].
    destruct x; try done. destruct (negb _).
    + injection Hstep as <-.
      destruct (single_loop_same st (update_call st) eq_refl eq_refl SL) as [SL1 _].
      destruct (single_loop_set_task (update_call st) t Sleeping Fetching Ht) as [SL2 S2];
        try done.
      rewrite S2 in Hturn. by injection Hturn as <-.
    + injection Hstep as <-.
      destruct (single_loop_finish st t Ht SL) as [SL2 S2].
      rewrite S2 in Hturn. by injection Hturn as <-.
  - (* resume *)
    unfold resume in Hstep.
    destruct (tasks st !! t) as [x|] eqn:Ht; [|done].
    assert (forall k out, out = request k connects st ->
               st1 = match out with
                     | (s1, Normal r) => log (Returned t r) (set_task t Finished s1)
                     | (s1, Throw) => set_task t Crashed s1
                     end ->
               polling x = false ->
               single_loop st' /\ hooked_once st') as Finish.
    { intros k out -> E Px.
      destruct (request_frame k connects st) as (_ & Hl' & _ & Ht' & Hu').
      destruct (single_loop_same st _ Ht' Hu' SL) as [SL1 _].
      rewrite <- Ht' in Ht.
      destruct (request k connects st) as [s1 [r|]]; simpl in *; subst st1.
      - destruct (single_loop_set_task s1 t x Finished Ht) as [SL2 S2]; try done.
        destruct (single_loop_same (set_task t Finished s1)
                    (log (Returned t r) (set_task t Finished s1)) eq_refl eq_refl SL2)
          as [SL3 S3].
        rewrite S3 in Hturn. injection Hturn as <-. split; [done|].
        unfold hooked_once. simpl. by rewrite Hl'.
      - destruct (single_loop_set_task s1 t x Crashed Ht) as [SL2 S2]; try done.
        rewrite S2 in Hturn. injection Hturn as <-. split; [done|].
        unfold hooked_once. simpl. by rewrite Hl'. }
    destruct x; try done; destruct (promises st !! p) as [[]|]; try done.
    + apply (Finish Hypervisor (hypervisor connects st) eq_refl); [|done].
      simpl. destruct (hypervisor connects st) as [s1 [r|]]; by injection Hstep as <-.
    + apply (Finish Agent (agent connects st) eq_refl); [|done].
      simpl. destruct (agent connects st) as [s1 [r|]]; by injection Hstep as <-.
  - (* connection lost *)
    injection Hstep as <-.
    destruct (single_loop_same st (connection_lost r st) eq_refl eq_refl SL) as [SL1 S1].
    rewrite S1 in Hturn. by injection Hturn as <-.
Qed.

(** X11.  One loop at a time, as long as calls come one per turn.  From
    the constructor on, through any sequence of turns, each made of one
    call or one outside event followed by the tick it may have queued,
    there is never more than one polling loop, none is left waiting for
    its tick, and the flag is set whenever a loop exists. *)
Theorem one_loop_when_calls_are_spaced
    (api : string) (i : json) (st st' : Instance) (es : list event) :
  new_Instance api i = Normal st ->
  turns es st = Some st' ->
  polling_tasks st' <= 1 /\
  first_queued (tasks st') = None /\
  (polling_tasks st' = 1 -> updating st' = true).
Proof.
  intros Hnew Hturns.
  assert (single_loop st /\ hooked_once st) as [SL H].
  { unfold new_Instance, bind in Hnew. destruct (get (VJson i) "id"); [|done].
    inversion Hnew; subst. split; [|done].
    unfold single_loop, polling_tasks. simpl. split; [done|]. split; [lia|done]. }
  assert (single_loop st') as (Hq & Hc & Hu).
  { clear Hnew. revert st SL H Hturns.
    induction es as [|e es IH]; intros st SL H Hturns; simpl in Hturns.
    - by inversion Hturns; subst.
    - destruct (turn e st) as [s1|] eqn:Ht; [|done].
      destruct (turn_single_loop e st s1 SL H Ht) as [SL1 H1]. by eapply IH. }
  done.
Qed.

Lemma one_loop_when_calls_are_spaced_witness :
  polling_tasks (default off_handle (turns [CallOn "change" 1; CallOn "change" 2] off_handle)) <= 1.
Proof.
  assert (turns [CallOn "change" 1; CallOn "change" 2] off_handle
          = Some (default off_handle (turns [CallOn "change" 1; CallOn "change" 2] off_handle)))
    as E by (vm_compute; reflexivity).
  exact (proj1 (one_loop_when_calls_are_spaced "https://host/api" snapshot_off off_handle _
                  [CallOn "change" 1; CallOn "change" 2] eq_refl E)).
Defined.

(** *** The resource a handle talks to *)

Lemma prefix_append (x p : string) : String.prefix x (x +:+ p) = true.
Proof.
  induction x as [|c x IH]; simpl; [by destruct p|].
  destruct (ascii_dec c c); [exact IH | done].
Qed.

Lemma prefix_append_both (a x p : string) :
  String.prefix (a +:+ x) (a +:+ (x +:+ p)) = true.
Proof.
  induction a as [|c a IH].
  - exact (prefix_append x p).
  - change (String.prefix (String c (a +:+ x)) (String c (a +:+ (x +:+ p))) = true).
    cbn [String.prefix]. destruct (ascii_dec c c); [exact IH | done].
Qed.

Lemma own_resource_ext i api st st' :
  id st' = id st -> project_api st' = project_api st -> trace st' = trace st ->
  own_resource i api st -> own_resource i api st'.
Proof. unfold own_resource. by intros -> -> ->. Qed.

Lemma own_resource_log i api e st :
  addressed i e -> own_resource i api st -> own_resource i api (log e st).
Proof.
  intros He (Hi & Ha & Ht). split; [done|]. split; [done|].
  simpl. apply Forall_app. split; [done|]. by constructor.
Qed.

Lemma own_resource_fetch i api path method body st :
  own_resource i api st -> own_resource i api (_fetch path method body st).
Proof.
  intros O. unfold _fetch. apply own_resource_log; [|done].
  destruct O as (<- & _). apply prefix_append_both.
Qed.

Lemma resolve_own_resource i api q st :
  own_resource i api st -> own_resource i api (resolve q st).
Proof.
  intros O. unfold resolve. destruct (promises st !! q) as [[]|]; try done.
  apply own_resource_log; [done|]. by eapply own_resource_ext; [| | |exact O].
Qed.

Lemma call_listener_own_resource i api ev l st :
  own_resource i api st -> own_resource i api (call_listener ev l st).
Proof.
  intros O. destruct l as [|q cb|o]; simpl.
  - unfold manageUpdates. destruct (updating st); [done|].
    by eapply own_resource_ext; [| | |exact O].
  - destruct (satisfied cb (info st)) eqn:S.
    + rewrite change_satisfied by done. apply resolve_own_resource.
      by eapply own_resource_ext; [| | |exact O].
    + by rewrite change_unsatisfied.
  - by apply own_resource_log.
Qed.

Lemma emit_own_resource i api ev st :
  own_resource i api st -> own_resource i api (emit ev st).
Proof.
  intros O. unfold emit. apply fold_left_invariant.
  - by apply own_resource_log.
  - intros s l _. apply call_listener_own_resource.
Qed.

Lemma on_own_resource i api ev l st :
  own_resource i api st -> own_resource i api (on ev l st).
Proof.
  intros O. unfold on.
  set (st1 := match listeners_of "newListener" st with [] => st | _ :: _ => _ end).
  assert (own_resource i api st1) as O1.
  { subst st1. destruct (listeners_of "newListener" st); [done|].
    by apply emit_own_resource. }
  by eapply own_resource_ext; [| | |exact O1].
Qed.

Lemma waitFor_own_resource i api cb st :
  own_resource i api st -> own_resource i api (fst (_waitFor cb st)).
Proof.
  intros O. unfold _waitFor. simpl.
  change (change _ cb ?s) with (call_listener "change" (LWaiter (length (promises st)) cb) s).
  apply call_listener_own_resource, on_own_resource.
  by eapply own_resource_ext; [| | |exact O].
Qed.

Lemma update_own_resource i api fetched st :
  own_resource i api st -> own_resource i api (fst (update fetched st)).
Proof.
  intros O. destruct (differs fetched (info st)) eqn:D.
  - rewrite update_changed by done. cbv zeta.
    assert (own_resource i api (emit "change" (set_info fetched st))) as O2.
    { apply emit_own_resource. by eapply own_resource_ext; [| | |exact O]. }
    destruct (get _ _) as [v|]; [destruct (truthy v)|]; simpl; try done.
    by apply emit_own_resource.
  - by rewrite update_unchanged.
Qed.

Lemma request_own_resource i api k c st :
  own_resource i api st -> own_resource i api (fst (request k c st)).
Proof.
  intros O.
  destruct (derived_endpoint k st) as [target|] eqn:He.
  2: { destruct k; simpl in *; unfold hypervisor, agent; by rewrite He. }
  destruct O as (Hi & Ha & Hf).
  destruct (stored k st) as [r|] eqn:Hs.
  - rewrite (request_stored k c st r target Hs He).
    destruct (stream_active r st); [destruct (String.eqb _ _)|];
      destruct c, k; (split; [done|]); (split; [done|]); simpl; try done;
      rewrite ?Forall_app; repeat split; try done; by repeat constructor.
  - rewrite (request_unstored k c st target Hs He).
    destruct c, k; (split; [done|]); (split; [done|]); simpl; try done;
      rewrite ?Forall_app; repeat split; try done; by repeat constructor.
Qed.

Lemma issue_own_resource i api c st :
  own_resource i api st -> own_resource i api (issue c st).
Proof. intros O. destruct c; simpl; by apply own_resource_fetch. Qed.

Lemma step_own_resource i api e st st' :
  step e st = Some st' -> own_resource i api st -> own_resource i api st'.
Proof.
  intros Hstep O. destruct e; cbn [step] in Hstep.
  - injection Hstep as <-. by apply on_own_resource.
  - injection Hstep as <-. by eapply own_resource_ext; [| | |exact O].
  - assert (st' = fst (_waitFor callback st)) as -> by (by injection Hstep as <-).
    by apply waitFor_own_resource.
  - assert (st' = fst (_waitFor (state_is target) st)) as -> by (by injection Hstep as <-).
    by apply waitFor_own_resource.
  - assert (st' = fst (_waitFor not_creating st)) as -> by (by injection Hstep as <-).
    by apply waitFor_own_resource.
  - injection Hstep as <-.
    pose proof (own_resource_fetch i api "" "GET" None st O) as O1.
    by eapply own_resource_ext; [| | |exact O1].
  - injection Hstep as <-.
    pose proof (issue_own_resource i api c st O) as O1.
    by eapply own_resource_ext; [| | |exact O1].
  - injection Hstep as <-. unfold hypervisor_call.
    pose proof (waitFor_own_resource i api vpn_ip_assigned st O) as O1.
    destruct (_waitFor vpn_ip_assigned st) as [s1 q].
    by eapply own_resource_ext; [| | |exact O1].
  - injection Hstep as <-. unfold agent_call.
    pose proof (waitFor_own_resource i api agent_present st O) as O1.
    destruct (_waitFor agent_present st) as [s1 q].
    by eapply own_resource_ext; [| | |exact O1].
  - destruct (first_queued (tasks st)) as [t|]; [|done].
    unfold poll_start in Hstep. destruct (tasks st !! t) as [[]|]; try done.
    injection Hstep as <-.
    assert (own_resource i api (set_updating true st)) as O0
      by (by eapply own_resource_ext; [| | |exact O]).
    pose proof (own_resource_fetch i api "" "GET" None (set_updating true st) O0) as O1.
    by eapply own_resource_ext; [| | |exact O1].
  - unfold reply, poll_reply in Hstep.
    destruct (tasks st !! t) as [[]|]; try done; destruct r as [fetched|];
      try (injection Hstep as <-; by eapply own_resource_ext; [| | |exact O]);
      pose proof (update_own_resource i api fetched st O) as O1;
      destruct (update fetched st) as [s1 [[]|]]; simpl in O1;
      injection Hstep as <-; by eapply own_resource_ext; [| | |exact O1].
  - unfold poll_wake in Hstep. destruct (tasks st !! t) as [[]|]; try done.
    destruct (negb _); injection Hstep as <-.
    + pose proof (own_resource_fetch i api "" "GET" None st O) as O1.
      by eapply own_resource_ext; [| | |exact O1].
    + by eapply own_resource_ext; [| | |exact O].
  - unfold resume in Hstep.
    destruct (tasks st !! t) as [[]|]; try done;
      destruct (promises st !! p) as [[]|]; try done.
    + pose proof (request_own_resource i api Hypervisor connects st O) as O1. simpl in O1.
      destruct (hypervisor connects st) as [s1 [r|]]; simpl in O1; injection Hstep as <-.
      * apply own_resource_log; [done|]. by eapply own_resource_ext; [| | |exact O1].
      * by eapply own_resource_ext; [| | |exact O1].
    + pose proof (request_own_resource i api Agent connects st O) as O1. simpl in O1.
      destruct (agent connects st) as [s1 [r|]]; simpl in O1; injection Hstep as <-.
      * apply own_resource_log; [done|]. by eapply own_resource_ext; [| | |exact O1].
      * by eapply own_resource_ext; [| | |exact O1].
  - injection Hstep as <-. by eapply own_resource_ext; [| | |exact O].
Qed.

Lemma run_own_resource i api es :
  forall st st', run es st = Some st' -> own_resource i api st -> own_resource i api st'.
Proof.
  induction es as [|e es IH]; intros st st' Hrun O; simpl in Hrun.
  - by inversion Hrun; subst.
  - destruct (step e st) as [st1|] eqn:Hstep; [|done].
    eapply IH; [exact Hrun|]. by eapply step_own_resource.
Qed.

(** X12.  A handle keeps the id it read from its first snapshot: whatever
    is called on it and whatever the refreshes bring, also a snapshot with
    another id, [this.id] and the project stay the same, and every request
    the handle ever makes goes to a path under /instances/ followed by
    that id. *)
Theorem requests_go_to_own_resource
    (api : string) (i : json) (st st' : Instance) (es : list event) :
  new_Instance api i = Normal st ->
  run es st = Some st' ->
  get (VJson i) "id" = Normal (id st') /\
  project_api st' = api /\
  Forall (addressed (id st')) (trace st').
Proof.
  intros Hnew Hrun.
  assert (get (VJson i) "id" = Normal (id st) /\ own_resource (id st) api st) as [Hid O].
  { unfold new_Instance, bind in Hnew. destruct (get (VJson i) "id") as [v|]; [|done].
    inversion Hnew; subst. simpl. split; [done|]. by repeat split. }
  destruct (run_own_resource (id st) api es st st' Hrun O) as (Hi & Ha & Ht).
  by rewrite Hi.
Qed.

Lemma requests_go_to_own_resource_witness :
  Forall (addressed (VJson (JStr "i-1")))
    (trace (after [CallUpdate; Reply 0 (Some (connected_info "c1" "a1")); CallCommand CStart]
              off_handle)).
Proof.
  pose proof (requests_go_to_own_resource "https://host/api" snapshot_off off_handle
                (after [CallUpdate; Reply 0 (Some (connected_info "c1" "a1"));
                        CallCommand CStart] off_handle)
                [CallUpdate; Reply 0 (Some (connected_info "c1" "a1")); CallCommand CStart]
                eq_refl) as H.
  assert (run [CallUpdate; Reply 0 (Some (connected_info "c1" "a1")); CallCommand CStart]
            off_handle
          = Some (after [CallUpdate; Reply 0 (Some (connected_info "c1" "a1"));
                         CallCommand CStart] off_handle)) as E
    by (vm_compute; reflexivity).
  exact (proj2 (proj2 (H E))).
Defined.

(** *** The accessors once their wait is over *)






(** X14.  The two kinds of channel do not touch each other: a request for
    one kind, whether or not the connection of a new channel can be
    established, leaves the field of the other kind as it is, and leaves
    every channel object alone except the stored one of its own kind, so
    the other channel is never disconnected by it. *)
Theorem request_leaves_other_channels (k : channel_kind) (connects : bool) (st : Instance) :
  stored (other_kind k) (fst (request k connects st)) = stored (other_kind k) st /\
  (forall r ch,
      heap st !! r = Some ch -> stored k st <> Some r ->
      heap (fst (request k connects st)) !! r = Some ch) /\
  (forall r, stored k st <> Some r ->
             disconnects r (trace (fst (request k connects st))) = disconnects r (trace st)).
Proof.
  destruct (derived_endpoint k st) as [target|] eqn:He.
  - destruct (stored k st) as [r0|] eqn:Hs.
    + rewrite (request_stored k connects st r0 target Hs He).
      destruct (stream_active r0 st); [destruct (String.eqb _ _)|].
      * done.
      * destruct connects.
        -- destruct k; simpl; (split; [done|]); split.
           ++ intros r ch Hr Hne. apply lookup_app_l_Some.
              rewrite list_lookup_alter_ne by congruence. done.
           ++ intros r Hne. rewrite <- app_assoc. unfold disconnects.
              rewrite List.filter_app, length_app. simpl.
              replace (r0 =? r)%nat with false; [simpl; lia|].
              symmetry. apply Nat.eqb_neq. congruence.
           ++ intros r ch Hr Hne. apply lookup_app_l_Some.
              rewrite list_lookup_alter_ne by congruence. done.
           ++ intros r Hne. rewrite <- app_assoc. unfold disconnects.
              rewrite List.filter_app, length_app. simpl.
              replace (r0 =? r)%nat with false; [simpl; lia|].
              symmetry. apply Nat.eqb_neq. congruence.
        -- destruct k; simpl; (split; [done|]); split.
           ++ intros r ch Hr Hne. rewrite list_lookup_alter_ne by congruence. done.
           ++ intros r Hne. unfold disconnects.
              rewrite List.filter_app, length_app. simpl.
              replace (r0 =? r)%nat with false; [simpl; lia|].
              symmetry. apply Nat.eqb_neq. congruence.
           ++ intros r ch Hr Hne. rewrite list_lookup_alter_ne by congruence. done.
           ++ intros r Hne. unfold disconnects.
              rewrite List.filter_app, length_app. simpl.
              replace (r0 =? r)%nat with false; [simpl; lia|].
              symmetry. apply Nat.eqb_neq. congruence.
      * destruct connects; [|done].
        destruct k; simpl; (split; [done|]); split;
          try (intros r ch Hr Hne; by apply lookup_app_l_Some);
          intros r Hne; unfold disconnects; rewrite List.filter_app, length_app; simpl; lia.
    + rewrite (request_unstored k connects st target Hs He).
      destruct connects; [|done].
      destruct k; simpl; (split; [done|]); split;
        try (intros r ch Hr Hne; by apply lookup_app_l_Some);
        intros r Hne; unfold disconnects; rewrite List.filter_app, length_app; simpl; lia.
  - assert (request k connects st = (st, Throw)) as ->; [|done].
    destruct k; simpl in *; unfold hypervisor, agent; by rewrite He.
Qed.

(** *** hypervisor() from the call to the channel *)











(** *** Two refreshes in flight *)

Lemma refresh_reply t fetched st :
  tasks st !! t = Some Fetching \/ tasks st !! t = Some Refreshing ->
  fetched <> JNull ->
  exists st',
    step (Reply t (Some fetched)) st = Some st' /\
    info st' = fetched /\
    forall u x, u <> t -> tasks st !! u = Some x -> tasks st' !! u = Some x.
Proof.
  intros Ht Hn.
  pose proof (update_returns fetched st Hn) as R.
  pose proof (update_caches fetched st) as I.
  assert (forall u x, tasks st !! u = Some x ->
                      tasks (fst (update fetched st)) !! u = Some x) as T
    by (intros u x; apply update_task).
  cbn [step]. unfold reply, poll_reply.
  destruct Ht as [-> | ->]; destruct (update fetched st) as [s c]; simpl in *; subst c;
    eexists; (split; [reflexivity|]); (split; [done|]);
    intros u x Hne Hu; simpl; rewrite list_lookup_insert_ne by done; by apply T.
Qed.

(** X16.  The refresh of the polling loop and an update() called from
    outside are not kept apart: both can be in flight, their replies are
    taken in the order they come, and the one that comes last decides what
    the cache holds. *)
Theorem last_reply_wins (t u : nat) (a b : json) (st : Instance) :
  tasks st !! t = Some Fetching ->
  tasks st !! u = Some Refreshing ->
  a <> JNull -> b <> JNull ->
  (exists st', run [Reply t (Some a); Reply u (Some b)] st = Some st' /\ info st' = b) /\
  (exists st', run [Reply u (Some b); Reply t (Some a)] st = Some st' /\ info st' = a).
Proof.
  intros Ht Hu Ha Hb.
  assert (t <> u) as Hne by (intros ->; congruence).
  split.
  - destruct (refresh_reply t a st (or_introl Ht) Ha) as (s1 & H1 & _ & T1).
    destruct (refresh_reply u b s1 (or_intror (T1 u _ (not_eq_sym Hne) Hu)) Hb)
      as (s2 & H2 & I2 & _).
    exists s2. cbn [run]. by rewrite H1, H2.
  - destruct (refresh_reply u b st (or_intror Hu) Hb) as (s1 & H1 & _ & T1).
    destruct (refresh_reply t a s1 (or_introl (T1 t _ Hne Ht)) Ha)
      as (s2 & H2 & I2 & _).
    exists s2. cbn [run]. by rewrite H1, H2.
Qed.

Lemma last_reply_wins_witness :
  exists st',
    run [Reply 1 (Some snapshot_on); Reply 0 (Some snapshot_off_reordered)]
      (after [CallUpdate] polling_handle) = Some st' /\
    info st' = snapshot_off_reordered.
Proof.
  destruct (last_reply_wins 0 1 snapshot_off_reordered snapshot_on
              (after [CallUpdate] polling_handle)) as [_ H];
    try reflexivity; try discriminate.
  exact H.
Defined.

(** *** A wait from an idle handle, from the call back to idle *)






